(** * AI News Aggregator: the summarize route, the two source fetchers
      and the page's aggregation, embedded from the TypeScript sources.

    - [Js]: the JavaScript values and built-ins the routes rely on
      (truthiness, [||], template rendering, [trim], [toLowerCase],
      [includes], [join], stable [sort], [slice]).
    - [Summarize]: [hashText], [cleanExpiredCache], [summarizeWithLLM]
      and the [POST] handler, over an explicit cache, clock and network.
    - [GitHub], [HuggingFace]: the two [GET] handlers as functions of what
      the remote API answered.
    - [Page]: [fetchProjects] as a transition on the component state. *)

From Stdlib Require Import ZArith Ascii String List Lia Permutation Sorted.
From stdpp Require Import base strings gmap list sorting pretty.

Local Open Scope Z_scope.

(** ** JavaScript values and built-ins *)

Module Js.

(** [Number.isSafeInteger]: the integers a number holds exactly, which
    [String(n)] writes out digit by digit. *)
Definition is_safe_integer (n : Z) : bool :=
  (- (2 ^ 53 - 1) <=? n) && (n <=? 2 ^ 53 - 1).

Record safe_integer := {
  integer : Z;
  integer_safe : is_safe_integer integer = true
}.

(** A JSON value as a handler sees it after [request.json()] and
    destructuring.  [Undefined] is an absent field.  [Num] holds the safe
    integers.  Any other value that is not a string (an object, an array, a
    number that is not a safe integer; all of them truthy) is an [Obj], kept
    as the text [String(v)] gives for it, which is all the routes ever
    observe of one.  A string is a sequence of code units below 256, one
    [ascii] each. *)
Inductive value :=
| Undefined
| Null
| Bool (b : bool)
| Num (n : safe_integer)
| Str (s : string)
| Obj (shown : string).

(** [!v] is [negb (truthy v)]. *)
Definition truthy (v : value) : bool :=
  match v with
  | Undefined | Null => false
  | Bool b => b
  | Num n => negb (integer n =? 0)
  | Str s => negb (String.eqb s "")
  | Obj _ => true
  end.

(** [`${v}`] *)
Definition to_string (v : value) : string :=
  match v with
  | Undefined => "undefined"
  | Null => "null"
  | Bool true => "true"
  | Bool false => "false"
  | Num n => pretty (integer n)
  | Str s => s
  | Obj shown => shown
  end.

(** [a || b] on an optional string: an absent or empty [a] gives [b]. *)
Definition str_or (a : option string) (b : string) : string :=
  match a with
  | Some s => if String.eqb s "" then b else s
  | None => b
  end.

(** [a || b] where [b] may be absent too. *)
Definition str_or_opt (a b : option string) : option string :=
  match a with
  | Some s => if String.eqb s "" then b else a
  | None => b
  end.

(** [a || b] on optional numbers: [0] and an absent field are falsy. *)
Definition num_or (a : option Z) (b : Z) : Z :=
  match a with
  | Some n => if n =? 0 then b else n
  | None => b
  end.

Definition charCode (c : ascii) : Z := Z.of_N (N_of_ascii c).

(** White space of [String.prototype.trim] among the code units below
    256: TAB, LF, VT, FF, CR, SP and NBSP. *)
Definition is_white (c : ascii) : bool :=
  let n := charCode c in
  ((9 <=? n) && (n <=? 13)) || (n =? 32) || (n =? 160).

Fixpoint trimStart (s : string) : string :=
  match s with
  | EmptyString => EmptyString
  | String c rest => if is_white c then trimStart rest else s
  end.

Definition trim (s : string) : string :=
  String.rev (trimStart (String.rev (trimStart s))).

(** [toLowerCase] on code units below 256: A-Z and the Latin-1 capitals
    (0xC0-0xDE without the multiplication sign) move up by 32. *)
Definition lower_char (c : ascii) : ascii :=
  let n := charCode c in
  if ((65 <=? n) && (n <=? 90))
     || ((192 <=? n) && (n <=? 222) && negb (n =? 215))
  then ascii_of_N (Z.to_N (n + 32))
  else c.

Fixpoint toLowerCase (s : string) : string :=
  match s with
  | EmptyString => EmptyString
  | String c rest => String (lower_char c) (toLowerCase rest)
  end.

(** [arr.join(sep)] *)
Fixpoint join (sep : string) (arr : list string) : string :=
  match arr with
  | [] => ""
  | [s] => s
  | s :: rest => s +:+ sep +:+ join sep rest
  end.

Fixpoint startsWith (s pre : string) : bool :=
  match pre, s with
  | EmptyString, _ => true
  | String p pre', String c s' => if Ascii.eqb p c then startsWith s' pre' else false
  | String _ _, EmptyString => false
  end.

(** [s.includes(sub)]: [sub] starts at some position of [s]. *)
Fixpoint includes (s sub : string) : bool :=
  startsWith s sub ||
  match s with
  | EmptyString => false
  | String _ s' => includes s' sub
  end.

Section Sort.
Context {A : Type} (compareFn : A -> A -> Z).

(** [Array.prototype.sort(compareFn)] is a stable sort: with a
    consistent comparator its result is the one list that orders the
    elements by [compareFn] and keeps equal elements in their input
    order.  Insertion from the right computes that list. *)
Fixpoint sort_insert (x : A) (sorted : list A) : list A :=
  match sorted with
  | [] => [x]
  | y :: rest =>
      if compareFn x y <=? 0 then x :: sorted else y :: sort_insert x rest
  end.

Fixpoint sort (arr : list A) : list A :=
  match arr with
  | [] => []
  | x :: rest => sort_insert x (sort rest)
  end.
End Sort.

(** [arr.slice(0, n)] *)
Definition slice0 {A} (n : nat) (arr : list A) : list A := firstn n arr.

(** [s.replace(/\//g, '_')] *)
Fixpoint replace_slashes (s : string) : string :=
  match s with
  | EmptyString => EmptyString
  | String c rest =>
      String (if Ascii.eqb c "/" then "_"%char else c) (replace_slashes rest)
  end.

(** [s.split('/')[0]]: what stands before the first slash. *)
Fixpoint before_slash (s : string) : string :=
  match s with
  | EmptyString => EmptyString
  | String c rest => if Ascii.eqb c "/" then EmptyString else String c (before_slash rest)
  end.

(** A [Map<string, V>]: the entries in insertion order, which is the
    order [values()] lists them in. *)
Abbreviation Map V := (list (string * V)) (only parsing).

Section Map.
Context {V : Type}.

Fixpoint has (m : Map V) (k : string) : bool :=
  match m with
  | [] => false
  | (k', _) :: rest => if String.eqb k' k then true else has rest k
  end.

(** [m.set(k, v)]: a present key keeps its place and takes the new
    value, a new key goes to the end. *)
Fixpoint set (m : Map V) (k : string) (v : V) : Map V :=
  match m with
  | [] => [(k, v)]
  | (k', v') :: rest =>
      if String.eqb k' k then (k', v) :: rest else (k', v') :: set rest k v
  end.

Definition values (m : Map V) : list V := map snd m.
End Map.

End Js.

(** The [Project] record the two routes produce and the page shows; the
    page's optional [summary] is absent from what the routes send. *)
Record Project := {
  id : string;
  name : string;
  description : string;
  url : string;
  stars : Z;
  language : string;
  topics : list string;
  source : option string
}.

(** The comparator of all three sorts, [(a, b) => b.stars - a.stars]. *)
Definition by_stars_desc (a b : Project) : Z := stars b - stars a.

(** [a] may stand before [b] in a list that descends by popularity. *)
Definition stars_ge (a b : Project) : Prop := stars b <= stars a.

(** [s] does not start with white space. *)
Definition starts_clean (s : string) : Prop :=
  match s with
  | EmptyString => True
  | String c _ => Js.is_white c = false
  end.

(** [s] has no white space at either end. *)
Definition trimmed (s : string) : Prop :=
  starts_clean s /\ starts_clean (String.rev s).

(** [c] is one of the characters of [s]. *)
Fixpoint has_char (c : ascii) (s : string) : bool :=
  match s with
  | EmptyString => false
  | String x rest => Ascii.eqb x c || has_char c rest
  end.

(** [sub] occurs in [s] as a run of consecutive characters. *)
Definition substring (sub s : string) : Prop :=
  exists pre post, s = pre +:+ sub +:+ post.

(** ** The summarize route *)

Module Summarize.

(** Value type of the in-memory [cache]. *)
Record entry := { summary : string; timestamp : Z }.

Definition CACHE_DURATION : Z := 5 * 60 * 1000.

(** [ToInt32] *)
Definition to_int32 (z : Z) : Z := (z + 2 ^ 31) mod 2 ^ 32 - 2 ^ 31.

(** [a << n] on numbers *)
Definition shl32 (a : Z) (n : Z) : Z := to_int32 (Z.shiftl (to_int32 a) n).

(** [a & b] on numbers *)
Definition and32 (a b : Z) : Z := Z.land (to_int32 a) (to_int32 b).

Definition digit36 (d : Z) : ascii :=
  ascii_of_N (Z.to_N (if d <? 10 then 48 + d else 87 + d)).

Fixpoint digits36 (fuel : nat) (n : Z) (acc : string) : string :=
  match fuel with
  | O => acc
  | S fuel' =>
      let acc' := String (digit36 (n mod 36)) acc in
      if n / 36 =? 0 then acc' else digits36 fuel' (n / 36) acc'
  end.

(** [n.toString(36)] for an integral [n]; [n] has at most
    [log2 n + 1] digits in any base above 1. *)
Definition toString36 (n : Z) : string :=
  let digits m := digits36 (S (Z.to_nat (Z.log2 m))) m "" in
  if n <? 0 then "-" +:+ digits (- n) else digits n.

(** The loop of [hashText], from position [i] on, with the accumulator
    [hash]. *)
Fixpoint hashText_loop (text : string) (hash : Z) : Z :=
  match text with
  | EmptyString => hash
  | String c rest =>
      let char := Js.charCode c in
      let hash := shl32 hash 5 - hash + char in
      let hash := and32 hash hash in
      hashText_loop rest hash
  end.

Definition hashText (text : string) : string :=
  toString36 (hashText_loop text 0).

(** The test of the sweep, [now - value.timestamp > CACHE_DURATION]. *)
Definition expired (now : Z) (value : entry) : bool :=
  CACHE_DURATION <? now - timestamp value.

(** [cleanExpiredCache], with [now] the reading of [Date.now()]: one
    pass over a snapshot of the entries, deleting the expired ones. *)
Definition cleanExpiredCache (now : Z) (cache : gmap string entry)
  : gmap string entry :=
  foldr (fun kv c => if expired now kv.2 then delete kv.1 c else c)
        cache (map_to_list cache).

(** The three upstream APIs. *)
Inductive api := OpenAI | Anthropic | Groq.

Definition api_name (a : api) : string :=
  match a with OpenAI => "OpenAI" | Anthropic => "Anthropic" | Groq => "Groq" end.

(** What one [fetch] to an upstream API comes to:
    - [Rejected msg]: [fetch], or decoding an ok response, threw
      [Error(msg)];
    - [NotOk err]: [response.ok] is false; [err] is [None] when the body
      is not JSON, and otherwise [Some (error.error?.message)];
    - [Ok content]: an ok response, with the text found at
      [choices[0]?.message?.content] (at [content[0]?.text] for
      Anthropic), if any. *)
Inductive reply :=
| Rejected (msg : string)
| NotOk (err : option (option string))
| Ok (content : option string).

(** One upstream request: which API, with which prompt and key. *)
Record net_call := { target : api; prompt : string; key : Js.value }.

(** The outside world of one request.  [Date.now()] is read up to three
    times (sweep, age test, store); time does not run backwards, so the
    later readings are the first one plus the milliseconds elapsed. *)
Record env := {
  now_sweep : Z;
  elapsed_check : N;
  elapsed_store : N;
  upstream : net_call -> reply
}.

Definition now_check (e : env) : Z := now_sweep e + Z.of_N (elapsed_check e).
Definition now_store (e : env) : Z := now_check e + Z.of_N (elapsed_store e).

(** Result of an [async] function body: a value or a thrown [Error]. *)
Inductive completion (A : Type) :=
| Returned (a : A)
| Thrown (message : string).
Arguments Returned {A} a.
Arguments Thrown {A} message.

Definition nl : string := String (ascii_of_N 10) "".

Definition prompt_of (text : string) : string :=
  "Summarize the following text in up to 3 lines. Be concise and informative:"
    +:+ nl +:+ nl +:+ text.

(** One provider branch of [summarizeWithLLM]: the three differ in the
    URL, headers, model and where the text sits in the answer; they agree
    in what is thrown and returned. *)
Definition call_api (e : env) (a : api) (text : string) (apiKey : Js.value)
  : completion string * list net_call :=
  let c := {| target := a; prompt := prompt_of text; key := apiKey |} in
  (match upstream e c with
   | Rejected msg => Thrown msg
   | NotOk None => Thrown "Unknown error"
   | NotOk (Some message) => Thrown (Js.str_or message (api_name a +:+ " API error"))
   | Ok content => Returned (Js.str_or (Js.trim <$> content) "Summary not available")
   end, [c]).

(** The default [provider = 'openai'], of the parameter of
    [summarizeWithLLM] and of the destructuring in [POST]: it stands in for
    an absent provider only. *)
Definition provider_or_default (provider : Js.value) : Js.value :=
  match provider with
  | Js.Undefined => Js.Str "openai"
  | _ => provider
  end.

(** [summarizeWithLLM]: the summary or the error thrown, and the
    upstream requests made. *)
Definition summarizeWithLLM (e : env) (text : string) (apiKey provider : Js.value)
  : completion string * list net_call :=
  let provider := provider_or_default provider in
  match provider with
  | Js.Str "openai" => call_api e OpenAI text apiKey
  | Js.Str "anthropic" => call_api e Anthropic text apiKey
  | Js.Str "groq" => call_api e Groq text apiKey
  | _ => (Thrown ("Unsupported provider: " +:+ Js.to_string provider), [])
  end.

(** The request as [POST] finds it: [request.json()] or the
    destructuring threw [Error(message)], or the three fields of the
    body. *)
Inductive request :=
| Malformed (message : string)
| Body (text apiKey provider : Js.value).

Inductive payload :=
| Summary (summary : string) (cached : bool)
| Error (error : string).

(** [NextResponse.json(body, { status })]; the status is 200 when not
    given. *)
Record response := { status : Z; body : payload }.

Definition json (b : payload) : response := {| status := 200; body := b |}.
Definition json_status (b : payload) (s : Z) : response := {| status := s; body := b |}.

(** What a request leaves behind: the response, the cache, and the
    upstream requests it made, in order. *)
Record outcome := {
  resp : response;
  cache_after : gmap string entry;
  calls : list net_call
}.

(** The guard [!text || typeof text !== 'string'] lets through the
    non-empty strings only. *)
Definition valid_text (text : Js.value) : option string :=
  match text with
  | Js.Str t => if String.eqb t "" then None else Some t
  | _ => None
  end.

(** The rest of [POST] once the lookup gave nothing to return: the
    credential test, the upstream call, the store. *)
Definition post_miss (e : env) (cache : gmap string entry)
    (text cacheKey : string) (apiKey provider : Js.value) : outcome :=
  if negb (Js.truthy apiKey)
  then {| resp := json_status (Error "API key is required. Please set it in Settings.") 400;
          cache_after := cache; calls := [] |}
  else
    match summarizeWithLLM e text apiKey provider with
    | (Returned summary, made) =>
        {| resp := json (Summary summary false);
           cache_after := <[cacheKey := {| summary := summary; timestamp := now_store e |}]> cache;
           calls := made |}
    | (Thrown message, made) =>
        {| resp := json_status (Error message) 500; cache_after := cache; calls := made |}
    end.

Definition POST (e : env) (cache : gmap string entry) (req : request) : outcome :=
  match req with
  | Malformed message =>
      {| resp := json_status (Error message) 500; cache_after := cache; calls := [] |}
  | Body text apiKey provider =>
      let provider := provider_or_default provider in
      match valid_text text with
      | None =>
          {| resp := json_status (Error "Text is required") 400;
             cache_after := cache; calls := [] |}
      | Some text =>
          let cache := cleanExpiredCache (now_sweep e) cache in
          let cacheKey := hashText text in
          let cached := cache !! cacheKey in
          match cached with
          | Some c =>
              if now_check e - timestamp c <? CACHE_DURATION
              then {| resp := json (Summary (summary c) true);
                      cache_after := cache; calls := [] |}
              else post_miss e cache text cacheKey apiKey provider
          | None => post_miss e cache text cacheKey apiKey provider
          end
      end
  end.

(** HTTP status classes. *)
Definition client_error (s : Z) : Prop := 400 <= s < 500.

(** An entry the age test of [POST] accepts at the reading [now]. *)
Definition live (now : Z) (c : entry) : Prop := now - timestamp c < CACHE_DURATION.

(** The hash before the wrap to 32 bits: the polynomial in 31 over the
    code units, started from [hash]. *)
Fixpoint hash_polynomial (text : string) (hash : Z) : Z :=
  match text with
  | EmptyString => hash
  | String c rest => hash_polynomial rest (31 * hash + Js.charCode c)
  end.

(** The value of a base-36 digit, and of a run of digits read after [acc]. *)
Definition digit36_value (c : ascii) : Z :=
  let n := Js.charCode c in if n <? 58 then n - 48 else n - 87.

Fixpoint digits36_value (digits : string) (acc : Z) : Z :=
  match digits with
  | EmptyString => acc
  | String c rest => digits36_value rest (36 * acc + digit36_value c)
  end.

(** Reading back what [toString36] writes. *)
Definition parse36 (s : string) : Z :=
  match s with
  | String "-" digits => - digits36_value digits 0
  | _ => digits36_value s 0
  end.

(** The provider string that selects an API. *)
Definition provider_of (a : api) : string :=
  match a with OpenAI => "openai" | Anthropic => "anthropic" | Groq => "groq" end.

(** No entry of the cache has an empty summary. *)
Definition summaries_nonempty (cache : gmap string entry) : Prop :=
  forall k c, cache !! k = Some c -> summary c <> "".

End Summarize.

(** ** The GitHub route *)

Module GitHub.

(** An item of a search answer; its numeric [id] is a safe integer, as
    GitHub's ids are, so that [id.toString()] is its digits. *)
Record GitHubRepo := {
  repo_id : Js.safe_integer;
  repo_name : string;
  full_name : string;
  repo_description : option string;
  html_url : string;
  stargazers_count : Z;
  repo_language : option string;
  repo_topics : option (list string);
  created_at : string;
  pushed_at : string
}.

(** The six searches, for the day [dateStr]. *)
Definition queries (dateStr : string) : list string :=
  [ "topic:AI pushed:>" +:+ dateStr +:+ " stars:>10";
    "topic:machine-learning pushed:>" +:+ dateStr +:+ " stars:>10";
    "topic:artificial-intelligence pushed:>" +:+ dateStr +:+ " stars:>10";
    "topic:deep-learning pushed:>" +:+ dateStr +:+ " stars:>10";
    "topic:llm pushed:>" +:+ dateStr +:+ " stars:>10";
    "topic:nlp pushed:>" +:+ dateStr +:+ " stars:>10" ].

(** What one search comes to: [fetch] or [response.json()] threw, the
    response was not ok, or the body was read, with its [items] if it
    has any. *)
Inductive query_result :=
| Threw
| NotOk (status : Z)
| Items (items : option (list GitHubRepo)).

(** The body of the [forEach]: a full name already in the map is left
    alone. *)
Definition add_repo (allRepos : Js.Map GitHubRepo) (repo : GitHubRepo)
  : Js.Map GitHubRepo :=
  if negb (Js.has allRepos (full_name repo))
  then Js.set allRepos (full_name repo) repo
  else allRepos.

(** One turn of the loop over the queries; [continue] on a failed one. *)
Definition merge_query (allRepos : Js.Map GitHubRepo) (r : query_result)
  : Js.Map GitHubRepo :=
  match r with
  | Threw | NotOk _ => allRepos
  | Items items => foldl add_repo allRepos (default [] items)
  end.

(** [allRepos] after the loop, from the results in query order. *)
Definition merge_all (results : list query_result) : Js.Map GitHubRepo :=
  foldl merge_query [] results.

(** The repos the results deliver, in the order the loop meets them. *)
Definition delivered (results : list query_result) : list GitHubRepo :=
  results ≫= fun r => match r with Items items => default [] items | _ => [] end.

(** The entries of a map under the key [n]. *)
Definition entries_under (n : string) (m : Js.Map GitHubRepo) : Js.Map GitHubRepo :=
  filter (fun kv => kv.1 = n) m.

(** The first repo of full name [n] in a list. *)
Definition first_named (n : string) (l : list GitHubRepo) : option GitHubRepo :=
  find (fun r => String.eqb (full_name r) n) l.

(** The keywords the filter looks for, in the order it tries them. *)
Definition ai_keywords : list string :=
  [ "ai"; "machine-learning"; "artificial-intelligence"; "ml";
    "deep-learning"; "neural-network"; "llm"; "nlp" ].

(** The string the filter searches: the topics, lower-cased and joined
    with spaces. *)
Definition topicLower (repo : GitHubRepo) : string :=
  let topics := default [] (repo_topics repo) in
  Js.join " " (map Js.toLowerCase topics).

(** The predicate of the [filter]. *)
Definition has_ai_topic (repo : GitHubRepo) : bool :=
  let topicLower := topicLower repo in
  Js.includes topicLower "ai" ||
  Js.includes topicLower "machine-learning" ||
  Js.includes topicLower "artificial-intelligence" ||
  Js.includes topicLower "ml" ||
  Js.includes topicLower "deep-learning" ||
  Js.includes topicLower "neural-network" ||
  Js.includes topicLower "llm" ||
  Js.includes topicLower "nlp".

(** The function of the [map]. *)
Definition to_project (repo : GitHubRepo) : Project :=
  {| id := pretty (Js.integer (repo_id repo));
     name := full_name repo;
     description := Js.str_or (repo_description repo) "No description available";
     url := html_url repo;
     stars := stargazers_count repo;
     language := Js.str_or (repo_language repo) "Unknown";
     topics := default [] (repo_topics repo);
     source := Some "github" |}.

(** The [projects] chain up to the sort: filter, map, sort. *)
Definition ranked (allRepos : Js.Map GitHubRepo) : list Project :=
  Js.sort by_stars_desc
    (map to_project (filter (fun repo => has_ai_topic repo = true) (Js.values allRepos))).

(** The whole chain, with the final [slice(0, 50)]. *)
Definition projects_of (allRepos : Js.Map GitHubRepo) : list Project :=
  Js.slice0 50 (ranked allRepos).

Record response := {
  status : Z;
  projects : list Project;
  count : nat
}.

(** [GET], given the day and what each search comes to.  Nothing in the
    body of the outer [try] throws once the searches are contained, so
    the 500 answer of its [catch] is never produced here. *)
Definition GET (dateStr : string) (search : string -> query_result) : response :=
  let allRepos := merge_all (map search (queries dateStr)) in
  let projects := projects_of allRepos in
  {| status := 200; projects := projects; count := length projects |}.

End GitHub.

(** ** The Hugging Face route *)

Module HuggingFace.

Record Card := {
  card_short_description : option string;
  card_description : option string;
  card_sdk : option string
}.

(** One element of the answer, with the fields the route reads. *)
Record HuggingFaceSpace := {
  space_id : option string;
  space_name : option string;
  space_description : option string;
  card : option Card;
  title : option string;
  likes : option Z;
  likeCount : option Z;
  like_count : option Z;
  sdk : option string
}.

(** What the one request comes to: [fetch] threw (also on the 10 s
    abort), the response was not ok, or the list of spaces. *)
Inductive spaces_result :=
| Threw
| NotOk (status : Z)
| Spaces (spaces : list HuggingFaceSpace).

Definition description_of (space : HuggingFaceSpace) : string :=
  Js.str_or
    (Js.str_or_opt (space_description space)
      (Js.str_or_opt (card space ≫= card_short_description)
        (Js.str_or_opt (card space ≫= card_description)
          (Js.str_or_opt (title space) (space_id space)))))
    "".

Definition spaceId_of (space : HuggingFaceSpace) : string :=
  Js.str_or (Js.str_or_opt (space_id space) (space_name space)) "".

Definition likes_of (space : HuggingFaceSpace) : Z :=
  Js.num_or (likes space) (Js.num_or (likeCount space) (Js.num_or (like_count space) 0)).

(** The test [likes > 0 && spaceId]. *)
Definition kept (space : HuggingFaceSpace) : bool :=
  (0 <? likes_of space) && negb (String.eqb (spaceId_of space) "").

(** The object pushed for a kept space. *)
Definition to_project (space : HuggingFaceSpace) : Project :=
  let description := description_of space in
  let spaceId := spaceId_of space in
  let likes := likes_of space in
  {| id := "hf_space_" +:+ Js.replace_slashes spaceId;
     name := spaceId;
     description :=
       Js.str_or (Some description)
         ("Interactive AI demo by " +:+ Js.str_or (Some (Js.before_slash spaceId)) "Hugging Face");
     url := "https://huggingface.co/spaces/" +:+ spaceId;
     stars := likes;
     language := Js.str_or (Js.str_or_opt (sdk space) (card space ≫= card_sdk)) "Gradio";
     topics := ["space"; "demo"; "ai"];
     source := Some "huggingface_spaces" |}.

(** The body of the [forEach] on [allProjects]. *)
Definition push_space (allProjects : list Project) (space : HuggingFaceSpace)
  : list Project :=
  if kept space then allProjects ++ [to_project space] else allProjects.

Record response := {
  status : Z;
  projects : list Project;
  count : nat
}.

Definition GET (r : spaces_result) : response :=
  let allProjects :=
    match r with
    | Spaces spaces => foldl push_space [] spaces
    | Threw | NotOk _ => []
    end in
  let allProjects := Js.sort by_stars_desc allProjects in
  {| status := 200; projects := allProjects; count := length allProjects |}.

End HuggingFace.

(** ** The page *)

Module Page.

(** The component state [fetchProjects] writes. *)
Record state := {
  projects : list Project;
  loading : bool;
  error : option string
}.

(** What one [fetch('/api/...')] comes to, as far as [fetchProjects]
    looks: the call rejected with [Error(message)]; a response that is
    not ok; an ok response whose [json()] threw; an ok response with its
    [projects] field, if any. *)
Inductive fetched :=
| Rejected (message : string)
| NotOk (status : Z)
| BadJson (message : string)
| Data (projects : option (list Project)).

(** [response.ok] of a settled call. *)
Definition ok (f : fetched) : bool :=
  match f with
  | BadJson _ | Data _ => true
  | Rejected _ | NotOk _ => false
  end.

(** The two calls under [Promise.all]; when both reject, the one that
    rejects first gives the reason. *)
Record fetches := {
  github : fetched;
  huggingface : fetched;
  huggingface_rejects_first : bool
}.

(** The end of a run of the [try] block: the list to show, or the
    message of what was thrown. *)
Inductive run := Shown (allProjects : list Project) | Caught (message : string).

(** [response.ok ? await response.json() : { projects: [] }], then
    [data.projects || []]. *)
Definition projects_from (f : fetched) : run :=
  match f with
  | Data projects => Shown (default [] projects)
  | BadJson message => Caught message
  | NotOk _ => Shown []
  | Rejected message => Caught message
  end.

Definition try_block (f : fetches) : run :=
  match github f, huggingface f with
  | Rejected g, Rejected h => Caught (if huggingface_rejects_first f then h else g)
  | Rejected g, _ => Caught g
  | _, Rejected h => Caught h
  | g, h =>
      if negb (ok g) && negb (ok h) then Caught "Failed to fetch projects"
      else
        match projects_from g with
        | Caught message => Caught message
        | Shown githubProjects =>
            match projects_from h with
            | Caught message => Caught message
            | Shown huggingfaceProjects =>
                Shown (Js.sort by_stars_desc (githubProjects ++ huggingfaceProjects))
            end
        end
  end.

(** [fetchProjects], from the state it starts in to the state it
    leaves. *)
Definition fetchProjects (s : state) (f : fetches) : state :=
  match try_block f with
  | Shown allProjects => {| projects := allProjects; loading := false; error := None |}
  | Caught message => {| projects := projects s; loading := false; error := Some message |}
  end.

End Page.

(** ** The settings dialog *)

Module Settings.

(** The state of the dialog. *)
Record state := { apiKey : string; provider : string; saved : bool }.

(** The initial values of its three [useState]. *)
Definition initial : state := {| apiKey := ""; provider := "openai"; saved := false |}.

(** The effect run on mount, with [localStorage] as a map: a stored key
    that is not empty goes to the field, the provider defaults to
    [openai]. *)
Definition load (localStorage : gmap string string) (s : state) : state :=
  let savedKey := localStorage !! "apiKey" in
  let savedProvider := Js.str_or (localStorage !! "apiProvider") "openai" in
  {| apiKey := Js.str_or savedKey (apiKey s);
     provider := savedProvider;
     saved := saved s |}.

(** [handleSave], up to the timer it starts (which, a second later, turns
    [saved] off again and closes the dialog). *)
Definition handleSave (localStorage : gmap string string) (s : state)
  : gmap string string * state :=
  if negb (String.eqb (Js.trim (apiKey s)) "")
  then (<["apiProvider" := provider s]> (<["apiKey" := Js.trim (apiKey s)]> localStorage),
        {| apiKey := apiKey s; provider := provider s; saved := true |})
  else (delete "apiProvider" (delete "apiKey" localStorage),
        {| apiKey := apiKey s; provider := provider s; saved := true |}).

(** [handleClear], up to its timer. *)
Definition handleClear (localStorage : gmap string string) (s : state)
  : gmap string string * state :=
  (delete "apiProvider" (delete "apiKey" localStorage),
   {| apiKey := ""; provider := provider s; saved := true |}).

(** Both settings are stored, with a key that is not empty and has no
    white space around it, or neither is. *)
Definition well_kept (localStorage : gmap string string) : Prop :=
  (exists key provider,
     localStorage !! "apiKey" = Some key /\ localStorage !! "apiProvider" = Some provider
     /\ key <> "" /\ trimmed key)
  \/ (localStorage !! "apiKey" = None /\ localStorage !! "apiProvider" = None).

End Settings.

(** ** The card of a project *)

Module NewsCard.

(** The state of a card; [summary] is [null] at first for a project as
    the routes send it. *)
Record state := { isSummarizing : bool; summary : option string }.

Definition initial : state := {| isSummarizing := false; summary := None |}.

(** What [fetch('/api/summarize')] comes to: the call or the reading of
    the body threw, or a response arrived. *)
Inductive answer :=
| Failed
| Answered (r : Summarize.response).

(** The body [handleSummarize] posts, as the route reads it back:
    [apiKey || undefined] leaves the field out for an absent or empty key. *)
Definition request_of (localStorage : gmap string string) (project : Project)
  : Summarize.request :=
  let apiKey := localStorage !! "apiKey" in
  let provider := Js.str_or (localStorage !! "apiProvider") "openai" in
  Summarize.Body
    (Js.Str (description project))
    (match apiKey with
     | Some k => if String.eqb k "" then Js.Undefined else Js.Str k
     | None => Js.Undefined
     end)
    (Js.Str provider).

(** [response.ok] *)
Definition ok (r : Summarize.response) : bool :=
  (200 <=? Summarize.status r) && (Summarize.status r <=? 299).

(** [data.summary] *)
Definition summary_field (r : Summarize.response) : option string :=
  match Summarize.body r with
  | Summarize.Summary s _ => Some s
  | Summarize.Error _ => None
  end.

(** [handleSummarize], given what the request comes to: the state it
    leaves and whether it raised the alert. *)
Definition handleSummarize (localStorage : gmap string string) (project : Project)
    (send : Summarize.request -> answer) (s : state) : state * bool :=
  match send (request_of localStorage project) with
  | Answered r =>
      if negb (ok r)
      then ({| isSummarizing := false; summary := summary s |}, true)
      else ({| isSummarizing := false; summary := summary_field r |}, false)
  | Failed => ({| isSummarizing := false; summary := summary s |}, true)
  end.

(** The summarize route as the other end of the request. *)
Definition route (e : Summarize.env) (cache : gmap string Summarize.entry)
  : Summarize.request -> answer :=
  fun req => Answered (Summarize.resp (Summarize.POST e cache req)).

(** The Summarize button is rendered under [!summary]. *)
Definition shows_button (s : state) : bool :=
  match summary s with
  | Some text => String.eqb text ""
  | None => true
  end.

(** The source tag: none for a project without source. *)
Definition source_label (project : Project) : option string :=
  match source project with
  | Some s =>
      if String.eqb s "" then None
      else Some (if String.eqb s "github" then "GitHub"
                 else if String.eqb s "huggingface_papers" then "Hugging Face"
                 else if String.eqb s "huggingface_spaces" then "Hugging Face"
                 else s)
  | None => None
  end.

(** The topic tags, [project.topics.slice(0, 3)]. *)
Definition shown_topics (project : Project) : list string :=
  Js.slice0 3 (topics project).

End NewsCard.

(** ** Concrete inputs *)

Module Demo.
Import Summarize.

(** A request clock at one million ms, and an upstream that answers. *)
Definition world : env :=
  {| now_sweep := 1000000; elapsed_check := 2; elapsed_store := 900;
     upstream := fun _ => Ok (Some " A short summary. ") |}.

(** An entry for the text [hello] stored 100 s before [world]'s sweep. *)
Definition fresh_cache : gmap string entry :=
  {[ hashText "hello" := {| summary := "Greets."; timestamp := 900000 |} ]}.

(** The same entry stored 1000 s before the sweep. *)
Definition stale_cache : gmap string entry :=
  {[ hashText "hello" := {| summary := "Greets."; timestamp := 0 |} ]}.

Definition repo (n : string) (stars : Z) (topics : list string) : GitHub.GitHubRepo :=
  {| GitHub.repo_id := {| Js.integer := 7; Js.integer_safe := eq_refl |};
     GitHub.repo_name := n; GitHub.full_name := "acme/" +:+ n;
     GitHub.repo_description := None; GitHub.html_url := "https://github.com/acme/" +:+ n;
     GitHub.stargazers_count := stars; GitHub.repo_language := Some "Python";
     GitHub.repo_topics := Some topics;
     GitHub.created_at := "2024-01-01T00:00:00Z"; GitHub.pushed_at := "2024-06-01T00:00:00Z" |}.

(** The [topic:AI] search finds [acme/vision] with 50 stars and
    [acme/shop], which has no AI topic; the [topic:llm] search finds
    [acme/vision] again, by then with 51 stars; the other searches fail. *)
Definition search (query : string) : GitHub.query_result :=
  if Js.startsWith query "topic:AI " then
    GitHub.Items (Some [repo "vision" 50 ["AI"; "Computer-Vision"]; repo "shop" 70 ["web"; "store"]])
  else if Js.startsWith query "topic:llm " then
    GitHub.Items (Some [repo "vision" 51 ["AI"; "Computer-Vision"]])
  else GitHub.NotOk 403.

(** A later request, 98 ms after [world] stored its summary. *)
Definition later_world : env :=
  {| now_sweep := 1001000; elapsed_check := 0; elapsed_store := 0;
     upstream := fun _ => Rejected "network down" |}.

(** A space with one like, and the same space with none. *)
Definition space (likes : Z) : HuggingFace.HuggingFaceSpace :=
  {| HuggingFace.space_id := Some "acme/demo"; HuggingFace.space_name := None;
     HuggingFace.space_description := None; HuggingFace.card := None;
     HuggingFace.title := None; HuggingFace.likes := Some likes;
     HuggingFace.likeCount := None; HuggingFace.like_count := None;
     HuggingFace.sdk := None |}.

(** The state of the page before the first click. *)
Definition initial : Page.state :=
  {| Page.projects := []; Page.loading := false; Page.error := None |}.

End Demo.

(** * Properties *)

(** ** The built-ins *)

Module JsFacts.

Lemma map_fmap {A B} (f : A -> B) (l : list A) : map f l = f <$> l.
Proof. reflexivity. Qed.

Lemma app_empty_l (s : string) : "" +:+ s = s.
Proof. reflexivity. Qed.

Lemma app_String c (s t : string) : String c s +:+ t = String c (s +:+ t).
Proof. reflexivity. Qed.

Lemma startsWith_spec pre : forall s,
  Js.startsWith s pre = true <-> exists post, s = pre +:+ post.
Proof.
  induction pre as [|p pre IH]; intros s.
  - destruct s; cbn; (split; [intros _; eexists; reflexivity | done]).
  - destruct s as [|c s]; cbn [Js.startsWith].
    + split; [done|]. intros [post Hpost]. rewrite app_String in Hpost. done.
    + destruct (Ascii.eqb_spec p c) as [->|Hne].
      * rewrite IH. split; intros [post Hpost]; exists post.
        -- rewrite app_String. by f_equal.
        -- rewrite app_String in Hpost. by injection Hpost.
      * split; [done|]. intros [post Hpost].
        rewrite app_String in Hpost. injection Hpost as Hc _. congruence.
Qed.

(** [includes] is the substring test. *)
Lemma includes_spec sub : forall s,
  Js.includes s sub = true <-> substring sub s.
Proof.
  unfold substring. intros s; split.
  - induction s as [|c s IH]; cbn [Js.includes]; intros H.
    + apply orb_true_iff in H as [H|H]; [|done].
      apply startsWith_spec in H as [post ->]. by exists "", post.
    + apply orb_true_iff in H as [H|H].
      * apply startsWith_spec in H as [post ->]. by exists "", post.
      * destruct (IH H) as (pre & post & ->). by exists (String c pre), post.
  - intros (pre & post & ->). induction pre as [|c pre IH].
    + rewrite app_empty_l.
      assert (Js.startsWith (sub +:+ post) sub = true) as Hs
        by (apply startsWith_spec; by exists post).
      destruct (sub +:+ post); cbn [Js.includes]; by rewrite Hs.
    + rewrite app_String. cbn [Js.includes]. rewrite IH. apply orb_true_r.
Qed.

Section MapFacts.
Context {V : Type}.

Lemma has_true (m : Js.Map V) k : Js.has m k = true <-> exists v, (k, v) ∈ m.
Proof.
  induction m as [|[k' v'] m IH]; cbn [Js.has].
  - split; [done|]. intros [v Hv]. by apply elem_of_nil in Hv.
  - destruct (String.eqb_spec k' k) as [->|Hne].
    + split; [|done]. intros _. exists v'. by left.
    + rewrite IH. split; intros [v Hv]; exists v.
      * by right.
      * apply elem_of_cons in Hv as [[= ? ?]|Hv]; [congruence|done].
Qed.

Lemma set_fresh (m : Js.Map V) k v : Js.has m k = false -> Js.set m k v = m ++ [(k, v)].
Proof.
  induction m as [|[k' v'] m IH]; cbn [Js.has Js.set]; [done|].
  destruct (String.eqb k' k); [done|]. intros H. cbn. by rewrite IH.
Qed.

Lemma values_app (m1 m2 : Js.Map V) : Js.values (m1 ++ m2) = Js.values m1 ++ Js.values m2.
Proof. unfold Js.values. apply map_app. Qed.

Lemma elem_of_values (m : Js.Map V) v : v ∈ Js.values m <-> exists k, (k, v) ∈ m.
Proof.
  unfold Js.values. rewrite map_fmap, list_elem_of_fmap. split.
  - intros ([k v'] & -> & Hin). by exists k.
  - intros [k Hin]. by exists (k, v).
Qed.
End MapFacts.

(** The sort by [by_stars_desc]: a permutation of its input that descends
    by popularity. *)
Lemma sort_insert_Permutation x l :
  Js.sort_insert by_stars_desc x l ≡ₚ x :: l.
Proof.
  induction l as [|y l IH]; cbn [Js.sort_insert]; [done|].
  destruct (by_stars_desc x y <=? 0); [done|].
  rewrite IH. apply Permutation_swap.
Qed.

Lemma sort_Permutation l : Js.sort by_stars_desc l ≡ₚ l.
Proof.
  induction l as [|x l IH]; cbn [Js.sort]; [done|].
  by rewrite sort_insert_Permutation, IH.
Qed.

Lemma elem_of_sort l p : p ∈ Js.sort by_stars_desc l <-> p ∈ l.
Proof. by rewrite sort_Permutation. Qed.

Lemma length_sort l : length (Js.sort by_stars_desc l) = length l.
Proof. by rewrite sort_Permutation. Qed.

(** The sort is stable: projects of equal popularity keep their order. *)
Lemma sort_insert_stable k x l :
  filter (fun p => stars p = k) (Js.sort_insert by_stars_desc x l) =
  filter (fun p => stars p = k) (x :: l).
Proof.
  induction l as [|y l IH]; cbn [Js.sort_insert]; [done|].
  destruct (Z.leb_spec (by_stars_desc x y) 0) as [Hle|Hgt]; [done|].
  unfold by_stars_desc in Hgt.
  rewrite (filter_cons _ y), IH, !filter_cons.
  destruct (decide (stars x = k)), (decide (stars y = k)); try done. lia.
Qed.

Lemma sort_stable k l :
  filter (fun p => stars p = k) (Js.sort by_stars_desc l) =
  filter (fun p => stars p = k) l.
Proof.
  induction l as [|x l IH]; cbn [Js.sort]; [done|].
  by rewrite sort_insert_stable, !filter_cons, IH.
Qed.

#[local] Instance stars_ge_trans : Transitive stars_ge.
Proof. unfold stars_ge. intros a b c. lia. Qed.

Lemma sort_insert_HdRel a x l :
  HdRel stars_ge a l -> stars_ge a x -> HdRel stars_ge a (Js.sort_insert by_stars_desc x l).
Proof.
  intros Hl Hx. destruct l as [|y l]; cbn [Js.sort_insert]; [by constructor|].
  destruct (by_stars_desc x y <=? 0); constructor; [done|].
  by inversion Hl.
Qed.

Lemma sort_insert_Sorted x l :
  Sorted stars_ge l -> Sorted stars_ge (Js.sort_insert by_stars_desc x l).
Proof.
  induction l as [|y l IH]; cbn [Js.sort_insert]; intros Hl; [by repeat constructor|].
  destruct (Z.leb_spec (by_stars_desc x y) 0) as [Hle|Hgt].
  - constructor; [done|]. constructor. unfold stars_ge, by_stars_desc in *. lia.
  - inversion Hl as [|? ? Hs Hhd]; subst. constructor; [by apply IH|].
    apply sort_insert_HdRel; [done|]. unfold stars_ge, by_stars_desc in *. lia.
Qed.

Lemma sort_StronglySorted l : StronglySorted stars_ge (Js.sort by_stars_desc l).
Proof.
  apply Sorted_StronglySorted; [apply _|].
  induction l as [|x l IH]; cbn [Js.sort]; [constructor|].
  by apply sort_insert_Sorted.
Qed.

Lemma StronglySorted_take {A} (R : relation A) n l :
  StronglySorted R l -> StronglySorted R (take n l).
Proof.
  revert n. induction l as [|x l IH]; intros [|n] Hl; cbn; try constructor.
  - apply IH. by inversion Hl.
  - inversion Hl as [|? ? _ Hall]; subst.
    rewrite Forall_forall in *. intros y Hy. apply Hall.
    by apply (subseteq_take n l).
Qed.

Lemma str_or_nonempty a b : b <> "" -> Js.str_or a b <> "".
Proof.
  intros Hb. unfold Js.str_or. destruct a as [s|]; [|done].
  by destruct (String.eqb_spec s "").
Qed.

Lemma app_assoc' (a b c : string) : (a +:+ b) +:+ c = a +:+ (b +:+ c).
Proof.
  induction a as [|x a IH]; [done|]. by rewrite !app_String, IH.
Qed.

Lemma app_empty_r' (s : string) : s +:+ "" = s.
Proof. induction s as [|c s IH]; [done|]. by rewrite app_String, IH. Qed.

Lemma rev_app_spec s : forall acc, String.rev_app s acc = String.rev s +:+ acc.
Proof.
  unfold String.rev. induction s as [|c s IH]; intros acc; [done|].
  cbn [String.rev_app]. rewrite (IH (String c acc)), (IH (String c "")).
  by rewrite app_assoc'.
Qed.

Lemma rev_String c s : String.rev (String c s) = String.rev s +:+ String c "".
Proof. unfold String.rev at 1. cbn [String.rev_app]. apply rev_app_spec. Qed.

Lemma rev_snoc s c : String.rev (s +:+ String c "") = String c (String.rev s).
Proof.
  induction s as [|x s IH]; [done|].
  by rewrite app_String, !rev_String, IH.
Qed.

Lemma rev_involutive s : String.rev (String.rev s) = s.
Proof.
  induction s as [|c s IH]; [done|]. by rewrite rev_String, rev_snoc, IH.
Qed.

Lemma rev_empty s : String.rev s = "" -> s = "".
Proof. intros H. apply (f_equal String.rev) in H. by rewrite rev_involutive in H. Qed.

Lemma trimStart_starts_clean s : starts_clean (Js.trimStart s).
Proof.
  induction s as [|c s IH]; [done|]. cbn [Js.trimStart].
  by destruct (Js.is_white c) eqn:Hc.
Qed.

Lemma trimStart_fixed s : starts_clean s -> Js.trimStart s = s.
Proof. destruct s as [|c s]; [done|]. cbn. by intros ->. Qed.

(** Dropping white space at the start leaves the other end as it was. *)
Lemma trimStart_keeps_end s :
  starts_clean (String.rev s) -> starts_clean (String.rev (Js.trimStart s)).
Proof.
  induction s as [|c s IH]; [done|]. cbn [Js.trimStart].
  destruct (Js.is_white c) eqn:Hc; [|done].
  intros Hend. apply IH. rewrite rev_String in Hend.
  destruct (String.rev s) as [|x r] eqn:Hrev; [done|].
  by rewrite app_String in Hend.
Qed.

Lemma trim_trimmed s : trimmed (Js.trim s).
Proof.
  unfold trimmed, Js.trim. split.
  - apply trimStart_keeps_end. rewrite rev_involutive. apply trimStart_starts_clean.
  - rewrite rev_involutive. apply trimStart_starts_clean.
Qed.

Lemma trim_fixed s : trimmed s -> Js.trim s = s.
Proof.
  intros [Hstart Hend]. unfold Js.trim.
  by rewrite (trimStart_fixed s), (trimStart_fixed (String.rev s)), rev_involutive.
Qed.

Lemma trim_idempotent s : Js.trim (Js.trim s) = Js.trim s.
Proof. apply trim_fixed, trim_trimmed. Qed.

(** A string cannot start with [k] across a character that [k] lacks. *)
Lemma startsWith_app_sep k : forall a c b,
  has_char c k = false ->
  Js.startsWith (a +:+ String c b) k = Js.startsWith a k.
Proof.
  induction k as [|p k IH]; intros a c b Hc.
  - by destruct a.
  - cbn [has_char] in Hc. apply orb_false_iff in Hc as [Hp Hk].
    destruct a as [|x a].
    + rewrite app_empty_l. cbn [Js.startsWith]. by rewrite Hp.
    + rewrite app_String. cbn [Js.startsWith].
      destruct (Ascii.eqb p x); [by apply IH|done].
Qed.

Lemma includes_empty k : k <> "" -> Js.includes "" k = false.
Proof. by destruct k. Qed.

Lemma includes_app_sep k a c b :
  k <> "" -> has_char c k = false ->
  Js.includes (a +:+ String c b) k = Js.includes a k || Js.includes b k.
Proof.
  intros Hk Hc. induction a as [|x a IH].
  - rewrite app_empty_l, includes_empty by done.
    cbn [Js.includes]. destruct k as [|p k]; [done|].
    cbn [has_char] in Hc. apply orb_false_iff in Hc as [Hp _].
    cbn [Js.startsWith]. by rewrite Hp.
  - rewrite app_String. cbn [Js.includes]. rewrite IH.
    rewrite <- app_String, startsWith_app_sep by done.
    by rewrite orb_assoc.
Qed.

(** A keyword without the separator is found in the joined string exactly
    when it is found in one of the joined strings. *)
Lemma includes_join k sep l :
  k <> "" -> has_char sep k = false ->
  Js.includes (Js.join (String sep "") l) k = existsb (fun t => Js.includes t k) l.
Proof.
  intros Hk Hsep. induction l as [|t l IH].
  - by apply includes_empty.
  - destruct l as [|t' l].
    + cbn [Js.join existsb]. by rewrite orb_false_r.
    + change (Js.join (String sep "") (t :: t' :: l))
        with (t +:+ String sep (Js.join (String sep "") (t' :: l))).
      rewrite includes_app_sep by done. by rewrite IH.
Qed.

Lemma NoDup_fmap_filter {A B} (f : A -> B) (P : A -> Prop) `{!forall x, Decision (P x)} l :
  NoDup (f <$> l) -> NoDup (f <$> filter P l).
Proof.
  induction l as [|x l IH]; [done|].
  rewrite fmap_cons, NoDup_cons, filter_cons. intros [Hx Hl].
  destruct (decide (P x)); [|by apply IH].
  rewrite fmap_cons, NoDup_cons. split; [|by apply IH].
  intros (y & Hy & [_ Hin]%list_elem_of_filter)%list_elem_of_fmap.
  apply Hx. apply list_elem_of_fmap. by exists y.
Qed.

End JsFacts.

(** ** The cache sweep and the summarize handler *)

Module SummarizeFacts.
Import Summarize.

Section Sweep.
Variable now : Z.

Let step (kv : string * entry) (c : gmap string entry) : gmap string entry :=
  if expired now kv.2 then delete kv.1 c else c.

Lemma sweep_pass_kept (l : list (string * entry)) (c : gmap string entry) k :
  (forall v, (k, v) ∈ l -> expired now v = false) ->
  foldr step c l !! k = c !! k.
Proof.
  induction l as [|[k' v'] l IH]; intros Hl; [done|].
  cbn [foldr]. unfold step at 1. cbn [fst snd].
  assert (foldr step c l !! k = c !! k) as Hrec.
  { apply IH. intros v Hv. apply Hl. by right. }
  destruct (expired now v') eqn:Hexp; [|done].
  destruct (decide (k' = k)) as [->|Hne].
  - rewrite (Hl v') in Hexp; [done|by left].
  - by rewrite lookup_delete_ne.
Qed.

Lemma sweep_pass_dropped (l : list (string * entry)) (c : gmap string entry) k v :
  (k, v) ∈ l -> expired now v = true ->
  foldr step c l !! k = None.
Proof.
  induction l as [|[k' v'] l IH]; intros Hin Hexp; [by apply elem_of_nil in Hin|].
  cbn [foldr]. unfold step at 1. cbn [fst snd].
  apply elem_of_cons in Hin as [Heq|Hin].
  - injection Heq as <- <-. rewrite Hexp. apply lookup_delete_eq.
  - specialize (IH Hin Hexp).
    destruct (expired now v'); [|done].
    destruct (decide (k' = k)) as [->|Hne];
      [apply lookup_delete_eq | by rewrite lookup_delete_ne].
Qed.

(** The sweep, key by key: an entry stays exactly when it is not
    expired at [now]. *)
Lemma cleanExpiredCache_lookup (cache : gmap string entry) k :
  cleanExpiredCache now cache !! k =
    match cache !! k with
    | Some v => if expired now v then None else Some v
    | None => None
    end.
Proof.
  unfold cleanExpiredCache. fold step.
  destruct (cache !! k) as [v|] eqn:Hk.
  - destruct (expired now v) eqn:Hexp.
    + apply (sweep_pass_dropped _ _ k v); [|done].
      by apply elem_of_map_to_list.
    + rewrite sweep_pass_kept; [done|].
      intros v' Hv'. apply elem_of_map_to_list in Hv'. congruence.
  - rewrite sweep_pass_kept; [done|].
    intros v' Hv'. apply elem_of_map_to_list in Hv'. congruence.
Qed.

(** Sweeping does not see whether an expired entry was there. *)
Lemma cleanExpiredCache_delete_expired (cache : gmap string entry) k v :
  cache !! k = Some v -> expired now v = true ->
  cleanExpiredCache now (delete k cache) = cleanExpiredCache now cache.
Proof.
  intros Hk Hexp. apply map_eq. intros j.
  rewrite !cleanExpiredCache_lookup.
  destruct (decide (k = j)) as [<-|Hne].
  - by rewrite lookup_delete_eq, Hk, Hexp.
  - by rewrite lookup_delete_ne.
Qed.
End Sweep.

Lemma expired_true now v : expired now v = true <-> CACHE_DURATION < now - timestamp v.
Proof. unfold expired. apply Z.ltb_lt. Qed.

Lemma expired_false now v : expired now v = false <-> now - timestamp v <= CACHE_DURATION.
Proof. unfold expired. rewrite Z.ltb_ge. done. Qed.

Lemma now_sweep_le_check e : now_sweep e <= now_check e.
Proof. unfold now_check. lia. Qed.

Lemma valid_text_Some text t :
  valid_text text = Some t <-> text = Js.Str t /\ t <> "".
Proof.
  unfold valid_text. destruct text as [| | | |s|]; try (split; [done|intros [? ?]; done]).
  destruct (String.eqb_spec s ""); split.
  - done.
  - intros [[= ->] ?]. done.
  - intros [= ->]. done.
  - intros [[= ->] ?]. done.
Qed.

Lemma valid_text_Str t : t <> "" -> valid_text (Js.Str t) = Some t.
Proof. intros. by apply valid_text_Some. Qed.

(** [POST] on a text that passed the guard, split by what the lookup
    after the sweep finds. *)
Lemma POST_hit e cache t apiKey provider c :
  t <> "" ->
  cleanExpiredCache (now_sweep e) cache !! hashText t = Some c ->
  live (now_check e) c ->
  POST e cache (Body (Js.Str t) apiKey provider) =
    {| resp := json (Summary (summary c) true);
       cache_after := cleanExpiredCache (now_sweep e) cache;
       calls := [] |}.
Proof.
  intros Ht Hc Hlive. unfold POST. rewrite (valid_text_Str _ Ht). cbv zeta.
  rewrite Hc. unfold live in Hlive.
  by destruct (Z.ltb_spec (now_check e - timestamp c) CACHE_DURATION); [|lia].
Qed.

Lemma POST_miss e cache t apiKey provider :
  t <> "" ->
  (forall c, cleanExpiredCache (now_sweep e) cache !! hashText t = Some c ->
             ~ live (now_check e) c) ->
  POST e cache (Body (Js.Str t) apiKey provider) =
    post_miss e (cleanExpiredCache (now_sweep e) cache) t (hashText t)
              apiKey (provider_or_default provider).
Proof.
  intros Ht Hmiss. unfold POST. rewrite (valid_text_Str _ Ht). cbv zeta.
  destruct (cleanExpiredCache (now_sweep e) cache !! hashText t) as [c|] eqn:Hc; [|done].
  specialize (Hmiss c eq_refl). unfold live in Hmiss.
  by destruct (Z.ltb_spec (now_check e - timestamp c) CACHE_DURATION); [lia|].
Qed.

(** An entry that is live at the age test was not swept: the sweep read
    the clock no later. *)
Lemma live_survives_sweep e cache k c :
  cache !! k = Some c -> live (now_check e) c ->
  cleanExpiredCache (now_sweep e) cache !! k = Some c.
Proof.
  intros Hk Hlive. rewrite cleanExpiredCache_lookup, Hk.
  assert (expired (now_sweep e) c = false) as ->; [|done].
  apply expired_false. unfold live in Hlive.
  pose proof (now_sweep_le_check e). lia.
Qed.

(** The miss path never answers [cached: true]. *)
Lemma post_miss_not_cached e cache t k apiKey provider s :
  body (resp (post_miss e cache t k apiKey provider)) <> Summary s true.
Proof.
  unfold post_miss. destruct (negb (Js.truthy apiKey)); [done|].
  destruct (summarizeWithLLM e t apiKey provider) as [[?|?] ?]; done.
Qed.

(** What the miss path answers and calls does not depend on the cache. *)
Lemma post_miss_cache_irrelevant e cache1 cache2 t k apiKey provider :
  resp (post_miss e cache1 t k apiKey provider) = resp (post_miss e cache2 t k apiKey provider)
  /\ calls (post_miss e cache1 t k apiKey provider) = calls (post_miss e cache2 t k apiKey provider).
Proof.
  unfold post_miss. destruct (negb (Js.truthy apiKey)); [done|].
  by destruct (summarizeWithLLM e t apiKey provider) as [[?|?] ?].
Qed.

Lemma sweep_lookup_Some now cache k c :
  cleanExpiredCache now cache !! k = Some c ->
  cache !! k = Some c /\ expired now c = false.
Proof.
  rewrite cleanExpiredCache_lookup.
  destruct (cache !! k) as [v|]; [|done].
  destruct (expired now v) eqn:Hexp; [done|].
  by intros [= ->].
Qed.

Lemma no_live_entry_after_sweep e cache k :
  (forall c, cache !! k = Some c -> ~ live (now_check e) c) ->
  forall c, cleanExpiredCache (now_sweep e) cache !! k = Some c -> ~ live (now_check e) c.
Proof. intros Hno c Hc. apply sweep_lookup_Some in Hc as [Hc _]. by apply Hno. Qed.


(** A summary the handler stored is what the next request for the same
    text gets, as long as that request tests the age within
    [CACHE_DURATION] of the store. *)
Lemma stored_summary_is_served_next e1 e2 cache t apiKey1 provider1 apiKey2 provider2 s :
  t <> "" ->
  resp (POST e1 cache (Body (Js.Str t) apiKey1 provider1)) = json (Summary s false) ->
  now_check e2 - now_store e1 < CACHE_DURATION ->
  resp (POST e2 (cache_after (POST e1 cache (Body (Js.Str t) apiKey1 provider1)))
             (Body (Js.Str t) apiKey2 provider2)) = json (Summary s true)
  /\ calls (POST e2 (cache_after (POST e1 cache (Body (Js.Str t) apiKey1 provider1)))
                 (Body (Js.Str t) apiKey2 provider2)) = [].
Proof.
  intros Ht Hfirst Hsoon.
  assert (cache_after (POST e1 cache (Body (Js.Str t) apiKey1 provider1)) !! hashText t
          = Some {| summary := s; timestamp := now_store e1 |}) as Hstored.
  { revert Hfirst. unfold POST. rewrite (valid_text_Str _ Ht). cbv zeta.
    assert (forall c, resp (post_miss e1 c t (hashText t) apiKey1 (provider_or_default provider1))
                        = json (Summary s false) ->
                      cache_after (post_miss e1 c t (hashText t) apiKey1 (provider_or_default provider1))
                        !! hashText t = Some {| summary := s; timestamp := now_store e1 |}) as Hmiss.
    { intros c. unfold post_miss. destruct (negb (Js.truthy apiKey1)); [done|].
      destruct (summarizeWithLLM _ _ _ _) as [[s'|?] ?]; [|done].
      cbn. intros [= ->]. apply lookup_insert_eq. }
    destruct (cleanExpiredCache (now_sweep e1) cache !! hashText t) as [c|]; [|apply Hmiss].
    destruct (now_check e1 - timestamp c <? CACHE_DURATION); [done|apply Hmiss]. }
  rewrite (POST_hit e2 _ t apiKey2 provider2 {| summary := s; timestamp := now_store e1 |});
    [done|done| |done].
  by apply live_survives_sweep.
Qed.

(** C1.  A summarize request whose text is hashed to a key (the handler
    hashes the text that passed its non-empty-string guard) holding an entry
    of age below [CACHE_DURATION] at the age test answers 200 with that
    entry's summary and [cached: true], and makes no upstream call, whatever
    the credential, the provider and the upstream are. *)
Theorem live_entry_is_served_from_cache
    e cache text t apiKey provider c :
  valid_text text = Some t ->
  cache !! hashText t = Some c ->
  now_check e - timestamp c < CACHE_DURATION ->
  POST e cache (Body text apiKey provider) =
    {| resp := {| status := 200; body := Summary (summary c) true |};
       cache_after := cleanExpiredCache (now_sweep e) cache;
       calls := [] |}.
Proof.
  intros [-> Ht]%valid_text_Some Hc Hlive.
  apply POST_hit; [done| |done].
  by apply live_survives_sweep.
Qed.

Lemma live_entry_is_served_from_cache_witness :
  POST Demo.world Demo.fresh_cache (Body (Js.Str "hello") Js.Undefined (Js.Str "mistral")) =
    {| resp := {| status := 200; body := Summary "Greets." true |};
       cache_after := cleanExpiredCache 1000000 Demo.fresh_cache;
       calls := [] |}.
Proof.
  apply (live_entry_is_served_from_cache Demo.world Demo.fresh_cache
           (Js.Str "hello") "hello" Js.Undefined (Js.Str "mistral")
           {| summary := "Greets."; timestamp := 900000 |}).
  - reflexivity.
  - vm_compute. reflexivity.
  - vm_compute. reflexivity.
Defined.




(** The message names the provider as the template literal renders it: a
    number by its digits, and a number too large for that ([Obj], kept as its
    rendering) in exponent form. *)
Lemma unsupported_provider_rendering :
  body (resp (POST Demo.world ∅
                (Body (Js.Str "hello") (Js.Str "sk-demo")
                      (Js.Num {| Js.integer := -7; Js.integer_safe := eq_refl |}))))
    = Error "Unsupported provider: -7"
  /\ body (resp (POST Demo.world ∅
                   (Body (Js.Str "hello") (Js.Str "sk-demo") (Js.Obj "1e+21"))))
    = Error "Unsupported provider: 1e+21"
  /\ body (resp (POST Demo.world ∅
                   (Body (Js.Str "hello") (Js.Str "sk-demo") Js.Null)))
    = Error "Unsupported provider: null".
Proof. vm_compute. done. Qed.

(** C3.  No request returns an entry of age [CACHE_DURATION] or more: a
    [cached: true] answer carries the summary of an entry under the text's
    key that the sweep kept and the age test accepted.  A request whose key
    holds an entry older than [CACHE_DURATION] when the request starts (at
    the sweep) finds it purged by the sweep, and ends exactly (response,
    cache, upstream calls) as on the cache without that entry, on the miss
    path: credential test, upstream call, [cached: false].  And an entry
    that only fails the age test is passed over: response and upstream calls
    are those of the cache without it. *)
Theorem expired_entry_is_a_miss :
  (forall e cache req s,
     body (resp (POST e cache req)) = Summary s true ->
     exists text apiKey provider t c,
       req = Body text apiKey provider /\ valid_text text = Some t
       /\ cache !! hashText t = Some c /\ summary c = s
       /\ now_check e - timestamp c < CACHE_DURATION
       /\ now_sweep e - timestamp c <= CACHE_DURATION)
  /\ (forall e cache text t apiKey provider c,
     valid_text text = Some t ->
     cache !! hashText t = Some c ->
     CACHE_DURATION < now_sweep e - timestamp c ->
     cleanExpiredCache (now_sweep e) cache !! hashText t = None
     /\ POST e cache (Body text apiKey provider) =
          POST e (delete (hashText t) cache) (Body text apiKey provider)
     /\ POST e cache (Body text apiKey provider) =
          post_miss e (cleanExpiredCache (now_sweep e) cache) t (hashText t)
                    apiKey (provider_or_default provider)
     /\ forall s, body (resp (POST e cache (Body text apiKey provider))) <> Summary s true)
  /\ (forall e cache text t apiKey provider c,
     valid_text text = Some t ->
     cache !! hashText t = Some c ->
     CACHE_DURATION <= now_check e - timestamp c ->
     resp (POST e cache (Body text apiKey provider)) =
       resp (POST e (delete (hashText t) cache) (Body text apiKey provider))
     /\ calls (POST e cache (Body text apiKey provider)) =
       calls (POST e (delete (hashText t) cache) (Body text apiKey provider))).
Proof.
  split; [|split].
  - intros e cache [message|text apiKey provider] s; [done|].
    unfold POST. destruct (valid_text text) as [t|] eqn:Ht; [|done]. cbv zeta.
    destruct (cleanExpiredCache (now_sweep e) cache !! hashText t) as [c|] eqn:Hc.
    + destruct (Z.ltb_spec (now_check e - timestamp c) CACHE_DURATION) as [Hlt|Hge].
      * cbn. intros [= <-]. apply sweep_lookup_Some in Hc as [Hc Hexp].
        apply expired_false in Hexp.
        exists text, apiKey, provider, t, c. done.
      * intros H. by apply post_miss_not_cached in H.
    + intros H. by apply post_miss_not_cached in H.
  - intros e cache text t apiKey provider c [-> Ht]%valid_text_Some Hc Hold.
    assert (expired (now_sweep e) c = true) as Hexp by by apply expired_true.
    assert (cleanExpiredCache (now_sweep e) cache !! hashText t = None) as Hgone.
    { by rewrite cleanExpiredCache_lookup, Hc, Hexp. }
    assert (POST e cache (Body (Js.Str t) apiKey provider) =
            post_miss e (cleanExpiredCache (now_sweep e) cache) t (hashText t)
                      apiKey (provider_or_default provider)) as Hmiss.
    { apply POST_miss; [done|]. intros c'. by rewrite Hgone. }
    split; [done|]. split; [|split; [done|]].
    + rewrite Hmiss. rewrite POST_miss; [|done|].
      * by rewrite (cleanExpiredCache_delete_expired _ _ _ c).
      * intros c'. rewrite (cleanExpiredCache_delete_expired _ _ _ c) by done.
        by rewrite Hgone.
    + intros s. rewrite Hmiss. apply post_miss_not_cached.
  - intros e cache text t apiKey provider c [-> Ht]%valid_text_Some Hc Hold.
    rewrite (POST_miss e cache) by
      (try done; intros c' [Hc' _]%sweep_lookup_Some; unfold live;
       assert (c' = c) as -> by congruence; lia).
    rewrite (POST_miss e (delete _ _)) by
      (try done; intros c' [Hc' _]%sweep_lookup_Some;
       by rewrite lookup_delete_eq in Hc').
    apply post_miss_cache_irrelevant.
Qed.

Lemma expired_entry_is_a_miss_witness :
  POST Demo.world Demo.stale_cache (Body (Js.Str "hello") (Js.Str "sk-demo") Js.Undefined) =
  POST Demo.world (delete (hashText "hello") Demo.stale_cache)
       (Body (Js.Str "hello") (Js.Str "sk-demo") Js.Undefined).
Proof.
  apply (proj1 (proj2 expired_entry_is_a_miss) Demo.world Demo.stale_cache
           (Js.Str "hello") "hello" (Js.Str "sk-demo") Js.Undefined
           {| summary := "Greets."; timestamp := 0 |}).
  - reflexivity.
  - vm_compute. reflexivity.
  - vm_compute. reflexivity.
Defined.

(** C4.  A request whose [text] is the empty string, or absent, is answered
    400 [Text is required], a client error, with the cache as it was found
    (not read, not swept) and no upstream call, whatever the clock, the
    cache, the credential and the provider are. *)
Theorem empty_text_is_rejected_first e cache apiKey provider :
  POST e cache (Body (Js.Str "") apiKey provider) =
    {| resp := {| status := 400; body := Error "Text is required" |};
       cache_after := cache; calls := [] |}
  /\ POST e cache (Body Js.Undefined apiKey provider) =
    {| resp := {| status := 400; body := Error "Text is required" |};
       cache_after := cache; calls := [] |}
  /\ client_error 400.
Proof. unfold client_error. split; [done|]. split; [done|lia]. Qed.

(** C10.  The credential test comes after the cache lookup.  With a text
    that passed the guard, a falsy (absent or empty) credential and a live
    entry under the text's key, the request is answered 200 with the cached
    summary and [cached: true]; and whenever the answer is the 400
    [API key is required] error, the text passed the guard, the credential
    is falsy and the cache holds no live entry under the text's key. *)
Theorem credential_test_follows_cache_lookup :
  (forall e cache text t apiKey provider c,
     valid_text text = Some t ->
     Js.truthy apiKey = false ->
     cache !! hashText t = Some c ->
     now_check e - timestamp c < CACHE_DURATION ->
     POST e cache (Body text apiKey provider) =
       {| resp := {| status := 200; body := Summary (summary c) true |};
          cache_after := cleanExpiredCache (now_sweep e) cache;
          calls := [] |})
  /\ (forall e cache text apiKey provider,
     resp (POST e cache (Body text apiKey provider)) =
       {| status := 400; body := Error "API key is required. Please set it in Settings." |} ->
     exists t, valid_text text = Some t /\ Js.truthy apiKey = false
       /\ forall c, cache !! hashText t = Some c ->
                    ~ now_check e - timestamp c < CACHE_DURATION).
Proof.
  split.
  - intros e cache text t apiKey provider c [-> Ht]%valid_text_Some _ Hc Hlive.
    apply POST_hit; [done| |done]. by apply live_survives_sweep.
  - intros e cache text apiKey provider Hresp.
    destruct (valid_text text) as [t|] eqn:Htext.
    2:{ unfold POST in Hresp. rewrite Htext in Hresp. done. }
    exists t. split; [done|].
    apply valid_text_Some in Htext as [-> Ht].
    assert (forall c, cache !! hashText t = Some c -> ~ live (now_check e) c) as Hno.
    { intros c Hc Hlive.
      rewrite (POST_hit e cache t apiKey provider c) in Hresp;
        [done|done|by apply live_survives_sweep|done]. }
    split; [|done].
    rewrite POST_miss in Hresp; [|done|by apply no_live_entry_after_sweep].
    unfold post_miss in Hresp.
    destruct (Js.truthy apiKey); [|done]. cbn [negb] in Hresp.
    by destruct (summarizeWithLLM _ _ _ _) as [[?|?] ?].
Qed.

Lemma credential_test_follows_cache_lookup_witness :
  POST Demo.world Demo.fresh_cache (Body (Js.Str "hello") (Js.Str "") Js.Undefined) =
    {| resp := {| status := 200; body := Summary "Greets." true |};
       cache_after := cleanExpiredCache 1000000 Demo.fresh_cache;
       calls := [] |}.
Proof.
  apply (proj1 credential_test_follows_cache_lookup Demo.world Demo.fresh_cache
           (Js.Str "hello") "hello" (Js.Str "") Js.Undefined
           {| summary := "Greets."; timestamp := 900000 |}).
  - reflexivity.
  - reflexivity.
  - vm_compute. reflexivity.
  - vm_compute. reflexivity.
Defined.

(** *** The hash and its keys *)

Lemma to_int32_range z : - 2 ^ 31 <= to_int32 z < 2 ^ 31.
Proof. unfold to_int32. pose proof (Z.mod_pos_bound (z + 2 ^ 31) (2 ^ 32)). lia. Qed.

Lemma to_int32_shift z k : to_int32 (z + k * 2 ^ 32) = to_int32 z.
Proof.
  unfold to_int32. replace (z + k * 2 ^ 32 + 2 ^ 31) with (z + 2 ^ 31 + k * 2 ^ 32) by lia.
  by rewrite Z_mod_plus_full.
Qed.

Lemma to_int32_wraps z : exists k, to_int32 z = z + k * 2 ^ 32.
Proof.
  exists (- ((z + 2 ^ 31) / 2 ^ 32)). unfold to_int32.
  rewrite Z.mod_eq by lia. lia.
Qed.

Lemma to_int32_congr a b k : a = b + k * 2 ^ 32 -> to_int32 a = to_int32 b.
Proof. intros ->. apply to_int32_shift. Qed.

(** One turn of the loop takes [hash] to [31 * hash + char], wrapped. *)
Lemma hash_step hash char :
  and32 (shl32 hash 5 - hash + char) (shl32 hash 5 - hash + char) =
  to_int32 (31 * hash + char).
Proof.
  unfold and32. rewrite Z.land_diag. unfold shl32.
  rewrite Z.shiftl_mul_pow2 by lia.
  destruct (to_int32_wraps hash) as [k1 Hk1].
  destruct (to_int32_wraps (to_int32 hash * 2 ^ 5)) as [k2 Hk2].
  apply (to_int32_congr _ _ (32 * k1 + k2)). lia.
Qed.

Lemma hashText_loop_wrap text : forall h k,
  hashText_loop text (h + k * 2 ^ 32) = to_int32 (hash_polynomial text h)
  \/ (text = "" /\ hashText_loop text (h + k * 2 ^ 32) = h + k * 2 ^ 32).
Proof.
  induction text as [|c rest IH]; intros h k; [by right|]. left.
  cbn [hashText_loop hash_polynomial]. cbv zeta. rewrite hash_step.
  destruct (to_int32_wraps (31 * (h + k * 2 ^ 32) + Js.charCode c)) as [k' Hk'].
  assert (to_int32 (31 * (h + k * 2 ^ 32) + Js.charCode c) =
          31 * h + Js.charCode c + (31 * k + k') * 2 ^ 32) as Hwrap by lia.
  destruct (IH (31 * h + Js.charCode c) (31 * k + k')) as [Hrec|[-> Hrec]];
    rewrite <- Hwrap in Hrec; rewrite Hrec; [done|].
  cbn [hash_polynomial]. apply (to_int32_congr _ _ (31 * k)). lia.
Qed.

Lemma charCode_range c : 0 <= Js.charCode c < 256.
Proof.
  unfold Js.charCode. pose proof (N_ascii_bounded c). lia.
Qed.

Lemma charCode_ascii_of_N n : 0 <= n < 256 -> Js.charCode (ascii_of_N (Z.to_N n)) = n.
Proof.
  intros Hn. unfold Js.charCode. rewrite N_ascii_embedding by lia. lia.
Qed.

Lemma digit36_value_digit36 d : 0 <= d < 36 -> digit36_value (digit36 d) = d.
Proof.
  intros Hd. unfold digit36_value, digit36.
  destruct (Z.ltb_spec d 10).
  - rewrite charCode_ascii_of_N by lia. destruct (Z.ltb_spec (48 + d) 58); lia.
  - rewrite charCode_ascii_of_N by lia. destruct (Z.ltb_spec (87 + d) 58); lia.
Qed.

Lemma digit36_not_minus d : 0 <= d < 36 -> digit36 d <> "-"%char.
Proof.
  intros Hd Heq. apply (f_equal Js.charCode) in Heq. unfold digit36 in Heq.
  change (Js.charCode "-") with 45 in Heq.
  destruct (Z.ltb_spec d 10); rewrite charCode_ascii_of_N in Heq; lia.
Qed.

Lemma digits36_value_app p q acc :
  digits36_value (p +:+ q) acc = digits36_value q (digits36_value p acc).
Proof.
  revert acc. induction p as [|c p IH]; intros acc; [done|].
  change (String c p +:+ q) with (String c (p +:+ q)). cbn [digits36_value]. apply IH.
Qed.

(** With enough fuel [digits36] puts before [acc] the digits of [n], most
    significant first, and the first of them is not a minus sign. *)
Lemma digits36_spec fuel : forall n acc,
  0 <= n < 36 ^ Z.of_nat (S fuel) ->
  exists c p, digits36 (S fuel) n acc = String c p +:+ acc
              /\ c <> "-"%char /\ digits36_value (String c p) 0 = n.
Proof.
  assert (forall a b c : string, (a +:+ b) +:+ c = a +:+ (b +:+ c)) as Hassoc.
  { intros a b c'. induction a as [|x a IHa]; [done|].
    change (String x a +:+ b) with (String x (a +:+ b)).
    change (String x (a +:+ b) +:+ c') with (String x ((a +:+ b) +:+ c')).
    by rewrite IHa. }
  assert (forall f n acc, 0 <= n -> n / 36 = 0 ->
            exists c p, digits36 (S f) n acc = String c p +:+ acc
              /\ c <> "-"%char /\ digits36_value (String c p) 0 = n) as Hlast.
  { intros f n acc Hn Hq.
    assert (0 <= n mod 36 < 36) as Hd by (apply Z.mod_pos_bound; lia).
    cbn [digits36]. cbv zeta. rewrite Hq. cbn [Z.eqb].
    exists (digit36 (n mod 36)), "". split; [done|].
    split; [by apply digit36_not_minus|].
    cbn [digits36_value]. rewrite digit36_value_digit36 by done.
    rewrite (Z.div_mod n 36) at 2 by lia. lia. }
  induction fuel as [|fuel IH]; intros n acc Hn.
  - apply Hlast; [lia|]. apply Z.div_small. change (36 ^ Z.of_nat 1) with 36 in Hn. lia.
  - destruct (Z.eq_dec (n / 36) 0) as [Hq|Hq]; [apply Hlast; [lia|done]|].
    assert (0 <= n mod 36 < 36) as Hd by (apply Z.mod_pos_bound; lia).
    assert (0 <= n / 36 < 36 ^ Z.of_nat (S fuel)) as Hrec.
    { split; [apply Z.div_pos; lia|].
      apply Z.div_lt_upper_bound; [lia|].
      replace (Z.of_nat (S (S fuel))) with (Z.succ (Z.of_nat (S fuel))) in Hn by lia.
      rewrite Z.pow_succ_r in Hn by lia. lia. }
    destruct (IH (n / 36) (String (digit36 (n mod 36)) acc) Hrec) as (c & p & Heq & Hc & Hv).
    exists c, (p +:+ String (digit36 (n mod 36)) "").
    split; [|split; [done|]].
    + change (digits36 (S (S fuel)) n acc) with
        (let acc' := String (digit36 (n mod 36)) acc in
         if n / 36 =? 0 then acc' else digits36 (S fuel) (n / 36) acc').
      cbv zeta. destruct (Z.eqb_spec (n / 36) 0); [done|]. rewrite Heq.
      change (String c p) with (String c "" +:+ p).
      change (String c (p +:+ String (digit36 (n mod 36)) ""))
        with (String c "" +:+ (p +:+ String (digit36 (n mod 36)) "")).
      by rewrite !Hassoc.
    + change (String c (p +:+ String (digit36 (n mod 36)) ""))
        with (String c p +:+ String (digit36 (n mod 36)) "").
      rewrite digits36_value_app, Hv. cbn [digits36_value].
      rewrite digit36_value_digit36 by done.
      rewrite (Z.div_mod n 36) at 3 by lia. lia.
Qed.

Lemma enough_fuel n : 0 <= n -> 0 <= n < 36 ^ Z.of_nat (S (Z.to_nat (Z.log2 n))).
Proof.
  intros Hn. split; [done|]. pose proof (Z.log2_nonneg n) as Hlog.
  replace (Z.of_nat (S (Z.to_nat (Z.log2 n)))) with (Z.succ (Z.log2 n)) by lia.
  destruct (Z.eq_dec n 0) as [->|Hne]; [done|].
  pose proof (Z.log2_spec n ltac:(lia)) as [_ Hlt].
  assert (2 ^ Z.succ (Z.log2 n) <= 36 ^ Z.succ (Z.log2 n)); [|lia].
  apply Z.pow_le_mono_l. lia.
Qed.

Lemma app_empty_r (s : string) : s +:+ "" = s.
Proof. induction s as [|c s IH]; [done|]. change (String c s +:+ "") with (String c (s +:+ "")). by rewrite IH. Qed.

Lemma parse36_toString36 n : parse36 (toString36 n) = n.
Proof.
  unfold toString36. destruct (Z.ltb_spec n 0) as [Hneg|Hpos].
  - destruct (digits36_spec _ (- n) "" (enough_fuel (- n) ltac:(lia))) as (c & p & Heq & _ & Hv).
    cbv zeta. rewrite Heq.
    rewrite app_empty_r. change ("-" +:+ String c p) with (String "-" (String c p)).
    unfold parse36. rewrite Hv. lia.
  - destruct (digits36_spec _ n "" (enough_fuel n Hpos)) as (c & p & Heq & Hc & Hv).
    cbv zeta. rewrite Heq.
    rewrite app_empty_r. unfold parse36.
    destruct (Ascii.eqb_spec c "-") as [->|_]; [done|].
    by destruct c as [[] [] [] [] [] [] [] []].
Qed.

(** X1.  [hashText] is the 32-bit wrap of the polynomial in 31 over the
    code units of the text (wrapping at every turn of the loop gives what
    wrapping once at the end gives), so the hash lies in the signed 32-bit
    range. *)
Theorem hashText_is_wrapped_polynomial text :
  hashText_loop text 0 = to_int32 (hash_polynomial text 0)
  /\ - 2 ^ 31 <= hashText_loop text 0 < 2 ^ 31
  /\ hashText text = toString36 (to_int32 (hash_polynomial text 0)).
Proof.
  assert (hashText_loop text 0 = to_int32 (hash_polynomial text 0)) as H.
  { destruct (hashText_loop_wrap text 0 0) as [H|[-> H]]; [|done].
    by replace (0 + 0 * 2 ^ 32) with 0 in H by lia. }
  split; [done|]. split; [rewrite H; apply to_int32_range|].
  unfold hashText. by rewrite H.
Qed.

(** X2.  The base-36 rendering loses nothing: reading a key back gives the
    hash, so two texts share a cache key exactly when their 32-bit hashes are
    equal. *)
Theorem cache_key_identifies_hash :
  (forall n, parse36 (toString36 n) = n)
  /\ (forall text1 text2,
        hashText text1 = hashText text2 <->
        hashText_loop text1 0 = hashText_loop text2 0).
Proof.
  split; [apply parse36_toString36|].
  intros text1 text2. unfold hashText. split; [|by intros ->].
  intros H. apply (f_equal parse36) in H. by rewrite !parse36_toString36 in H.
Qed.

(** *** The handler and its cache *)

(** The three ways the miss path ends. *)
Lemma post_miss_cases e cache t k apiKey provider :
  let o := post_miss e cache t k apiKey provider in
  (Js.truthy apiKey = false /\ calls o = [] /\ cache_after o = cache
     /\ resp o = json_status (Error "API key is required. Please set it in Settings.") 400)
  \/ (exists s, summarizeWithLLM e t apiKey provider = (Returned s, calls o)
        /\ Js.truthy apiKey = true
        /\ cache_after o = <[k := {| summary := s; timestamp := now_store e |}]> cache
        /\ resp o = json (Summary s false))
  \/ (exists m, summarizeWithLLM e t apiKey provider = (Thrown m, calls o)
        /\ Js.truthy apiKey = true
        /\ cache_after o = cache /\ resp o = json_status (Error m) 500).
Proof.
  cbv zeta. unfold post_miss. destruct (Js.truthy apiKey); cbn [negb]; [|by left].
  right. destruct (summarizeWithLLM e t apiKey provider) as [[s|m] made].
  - left. by exists s.
  - right. by exists m.
Qed.

(** [POST] on a text that passed the guard either serves a live entry or
    takes the miss path on the swept cache. *)
Lemma POST_cases e cache t apiKey provider :
  t <> "" ->
  (exists c, cleanExpiredCache (now_sweep e) cache !! hashText t = Some c
             /\ live (now_check e) c
             /\ POST e cache (Body (Js.Str t) apiKey provider) =
                  {| resp := json (Summary (summary c) true);
                     cache_after := cleanExpiredCache (now_sweep e) cache;
                     calls := [] |})
  \/ ((forall c, cleanExpiredCache (now_sweep e) cache !! hashText t = Some c ->
                 ~ live (now_check e) c)
      /\ POST e cache (Body (Js.Str t) apiKey provider) =
           post_miss e (cleanExpiredCache (now_sweep e) cache) t (hashText t)
                     apiKey (provider_or_default provider)).
Proof.
  intros Ht.
  destruct (cleanExpiredCache (now_sweep e) cache !! hashText t) as [c|] eqn:Hc.
  - destruct (Z.lt_ge_cases (now_check e - timestamp c) CACHE_DURATION) as [Hlive|Hold].
    + left. exists c. split; [done|]. split; [done|]. by apply POST_hit.
    + right. assert (forall c', Some c = Some c' -> ~ live (now_check e) c') as Hno.
      { intros c' [= <-]. unfold live. lia. }
      split; [done|]. apply POST_miss; [done|]. by rewrite Hc.
  - right. split; [done|]. apply POST_miss; [done|]. by rewrite Hc.
Qed.

Lemma summarizeWithLLM_calls e t apiKey provider :
  (length (summarizeWithLLM e t apiKey provider).2 <= 1)%nat.
Proof.
  unfold summarizeWithLLM, call_api. cbv zeta.
  generalize (provider_or_default provider). clear provider. intros provider.
  repeat (match goal with
          | |- context [match ?x with _ => _ end] => is_var x; destruct x
          end; cbn [snd length]; try lia).
Qed.

Lemma summarizeWithLLM_supported e t apiKey a :
  summarizeWithLLM e t apiKey (Js.Str (provider_of a)) = call_api e a t apiKey.
Proof. by destruct a. Qed.

Lemma summarizeWithLLM_nonempty e t apiKey provider s made :
  summarizeWithLLM e t apiKey provider = (Returned s, made) -> s <> "".
Proof.
  unfold summarizeWithLLM, call_api. cbv zeta.
  generalize (provider_or_default provider). clear provider. intros provider.
  repeat (match goal with
          | |- context [match ?x with _ => _ end] => is_var x; destruct x
          end; try done);
    (destruct (upstream e _) as [?|[[?|]|]|?]; try done;
     intros [= <- _]; by apply JsFacts.str_or_nonempty).
Qed.

(** A successful miss leaves the summary under the key of the text. *)
Lemma POST_stores e cache t apiKey provider s :
  t <> "" ->
  resp (POST e cache (Body (Js.Str t) apiKey provider)) = json (Summary s false) ->
  cache_after (POST e cache (Body (Js.Str t) apiKey provider)) !! hashText t
    = Some {| summary := s; timestamp := now_store e |}.
Proof.
  intros Ht. destruct (POST_cases e cache t apiKey provider Ht) as [(c & _ & _ & ->)|[_ ->]];
    [done|].
  destruct (post_miss_cases e (cleanExpiredCache (now_sweep e) cache) t (hashText t)
              apiKey (provider_or_default provider))
    as [(_ & _ & _ & ->)|[(s' & _ & _ & -> & ->)|(m & _ & _ & _ & ->)]]; [done| |done].
  intros [= ->]. apply lookup_insert_eq.
Qed.

(** X3.  Texts that share a cache key share the entry: once a text has been
    summarized, a request for another text with the same key, tested within
    [CACHE_DURATION] of the store, is answered with the first text's summary
    and [cached: true], without an upstream call. *)
Theorem colliding_text_is_served_the_stored_summary
    e1 e2 cache t1 t2 apiKey1 provider1 apiKey2 provider2 s :
  t1 <> "" -> t2 <> "" ->
  hashText t1 = hashText t2 ->
  resp (POST e1 cache (Body (Js.Str t1) apiKey1 provider1)) = json (Summary s false) ->
  now_check e2 - now_store e1 < CACHE_DURATION ->
  POST e2 (cache_after (POST e1 cache (Body (Js.Str t1) apiKey1 provider1)))
          (Body (Js.Str t2) apiKey2 provider2) =
    {| resp := {| status := 200; body := Summary s true |};
       cache_after :=
         cleanExpiredCache (now_sweep e2)
           (cache_after (POST e1 cache (Body (Js.Str t1) apiKey1 provider1)));
       calls := [] |}.
Proof.
  intros Ht1 Ht2 Hkey Hfirst Hsoon.
  pose proof (POST_stores _ _ _ _ _ _ Ht1 Hfirst) as Hstored. rewrite Hkey in Hstored.
  apply (POST_hit e2 _ t2 apiKey2 provider2 {| summary := s; timestamp := now_store e1 |});
    [done| |done].
  by apply live_survives_sweep.
Qed.

Lemma colliding_text_is_served_the_stored_summary_witness :
  resp (POST Demo.later_world
          (cache_after (POST Demo.world ∅ (Body (Js.Str "Aa") (Js.Str "sk-demo") Js.Undefined)))
          (Body (Js.Str "BB") Js.Undefined Js.Undefined))
  = {| status := 200; body := Summary "A short summary." true |}.
Proof.
  rewrite (colliding_text_is_served_the_stored_summary Demo.world Demo.later_world ∅
             "Aa" "BB" (Js.Str "sk-demo") Js.Undefined Js.Undefined Js.Undefined
             "A short summary.").
  - reflexivity.
  - discriminate.
  - discriminate.
  - vm_compute. reflexivity.
  - vm_compute. reflexivity.
  - vm_compute. reflexivity.
Defined.

(** X4.  The sweep keeps exactly the entries whose age at [now] is at most
    [CACHE_DURATION]: it adds nothing, changes no entry, sweeping twice is
    sweeping once, and a sweep after an earlier one leaves what it would have
    left alone. *)
Theorem sweep_keeps_exactly_the_unexpired :
  (forall now cache,
     cleanExpiredCache now cache =
       filter (fun kv => now - timestamp kv.2 <= CACHE_DURATION) cache)
  /\ (forall now cache, cleanExpiredCache now cache ⊆ cache)
  /\ (forall now cache,
        cleanExpiredCache now (cleanExpiredCache now cache) = cleanExpiredCache now cache)
  /\ (forall now later cache,
        now <= later ->
        cleanExpiredCache later (cleanExpiredCache now cache) = cleanExpiredCache later cache).
Proof.
  assert (forall now cache,
     cleanExpiredCache now cache =
       filter (fun kv => now - timestamp kv.2 <= CACHE_DURATION) cache) as Hfilter.
  { intros now cache. apply map_eq. intros k.
    rewrite cleanExpiredCache_lookup, map_lookup_filter.
    destruct (cache !! k) as [v|]; [|done]. cbn.
    destruct (expired now v) eqn:Hexp.
    - apply expired_true in Hexp. rewrite option_guard_False by (cbn; lia). done.
    - apply expired_false in Hexp. by rewrite option_guard_True. }
  assert (forall now later cache,
        now <= later ->
        cleanExpiredCache later (cleanExpiredCache now cache) = cleanExpiredCache later cache)
    as Hlater.
  { intros now later cache Hle. apply map_eq. intros k.
    rewrite !cleanExpiredCache_lookup.
    destruct (cache !! k) as [v|]; [|done].
    destruct (expired now v) eqn:Hnow; [|done].
    apply expired_true in Hnow.
    assert (expired later v = true) as -> by (apply expired_true; lia). done. }
  split; [done|]. split; [|split; [|done]].
  - intros now cache. rewrite Hfilter. apply map_filter_subseteq.
  - intros now cache. by apply Hlater.
Qed.

Lemma sweep_keeps_exactly_the_unexpired_witness :
  cleanExpiredCache 2000000 (cleanExpiredCache 1000000 Demo.fresh_cache)
  = cleanExpiredCache 2000000 Demo.fresh_cache.
Proof.
  apply (proj2 (proj2 (proj2 sweep_keeps_exactly_the_unexpired))
           1000000 2000000 Demo.fresh_cache).
  lia.
Defined.

(** X5.  A request with a text that passed the guard changes the cache
    only by the sweep and, exactly when it answers [cached: false], by
    storing that summary under the text's key with the time of the store;
    entries under other keys are what the sweep left, and a request that
    fails stores nothing. *)
Theorem request_changes_cache_by_sweep_and_store e cache text t apiKey provider :
  valid_text text = Some t ->
  (forall k, k <> hashText t ->
     cache_after (POST e cache (Body text apiKey provider)) !! k =
     cleanExpiredCache (now_sweep e) cache !! k)
  /\ (forall s,
     body (resp (POST e cache (Body text apiKey provider))) = Summary s false ->
     cache_after (POST e cache (Body text apiKey provider)) =
       <[hashText t := {| summary := s; timestamp := now_store e |}]>
         (cleanExpiredCache (now_sweep e) cache))
  /\ ((forall s, body (resp (POST e cache (Body text apiKey provider))) <> Summary s false) ->
     cache_after (POST e cache (Body text apiKey provider)) =
       cleanExpiredCache (now_sweep e) cache).
Proof.
  intros [-> Ht]%valid_text_Some.
  destruct (POST_cases e cache t apiKey provider Ht) as [(c & _ & _ & ->)|[_ ->]];
    [done|].
  destruct (post_miss_cases e (cleanExpiredCache (now_sweep e) cache) t (hashText t)
              apiKey (provider_or_default provider))
    as [(_ & _ & -> & ->)|[(s' & _ & _ & -> & ->)|(m & _ & _ & -> & ->)]]; [done| |done].
  split; [|split].
  - intros k Hk. by rewrite lookup_insert_ne.
  - by intros s [= ->].
  - intros Hno. by destruct (Hno s').
Qed.

Lemma request_changes_cache_by_sweep_and_store_witness :
  cache_after (POST Demo.world Demo.stale_cache
                 (Body (Js.Str "Aa") (Js.Str "sk-demo") Js.Undefined)) !! hashText "hello" =
  cleanExpiredCache 1000000 Demo.stale_cache !! hashText "hello".
Proof.
  apply (proj1 (request_changes_cache_by_sweep_and_store Demo.world Demo.stale_cache
                  (Js.Str "Aa") "Aa" (Js.Str "sk-demo") Js.Undefined eq_refl)).
  vm_compute. discriminate.
Defined.

(** X6.  Every answer of [POST] has status 200, 400 or 500; it is 200
    exactly when the body carries a summary; at most one upstream call is
    made, and none when the answer is 400 or [cached: true]. *)
Theorem POST_answer_shape e cache req :
  (status (resp (POST e cache req)) = 200 \/ status (resp (POST e cache req)) = 400
     \/ status (resp (POST e cache req)) = 500)
  /\ (status (resp (POST e cache req)) = 200 <->
      exists s cached, body (resp (POST e cache req)) = Summary s cached)
  /\ (length (calls (POST e cache req)) <= 1)%nat
  /\ (status (resp (POST e cache req)) = 400 -> calls (POST e cache req) = [])
  /\ (forall s, body (resp (POST e cache req)) = Summary s true ->
                calls (POST e cache req) = []).
Proof.
  assert (forall o : outcome,
            (length (calls o) <= 1)%nat ->
            (status (resp o) = 400 -> calls o = []) ->
            (forall s, body (resp o) = Summary s true -> calls o = []) ->
            (status (resp o) = 200 /\ (exists s cached, body (resp o) = Summary s cached))
            \/ ((status (resp o) = 400 \/ status (resp o) = 500)
                /\ exists m, body (resp o) = Error m) ->
            (status (resp o) = 200 \/ status (resp o) = 400 \/ status (resp o) = 500)
            /\ (status (resp o) = 200 <-> exists s cached, body (resp o) = Summary s cached)
            /\ (length (calls o) <= 1)%nat
            /\ (status (resp o) = 400 -> calls o = [])
            /\ (forall s, body (resp o) = Summary s true -> calls o = [])) as Hshape.
  { intros o Hlen H400 Hhit [[H200 Hsum]|[Hst [m Hm]]].
    - repeat split; try done; by left.
    - repeat split; try done.
      + destruct Hst; [by right; left|by right; right].
      + destruct Hst; lia.
      + intros (s & cached & Hs). congruence. }
  destruct req as [message|text apiKey provider].
  { apply Hshape; cbn; try done; [lia|]. right. split; [by right|by eexists]. }
  destruct (valid_text text) as [t|] eqn:Htext.
  2:{ unfold POST. rewrite Htext. apply Hshape; cbn; try done; [lia|].
      right. split; [by left|by eexists]. }
  apply valid_text_Some in Htext as [-> Ht].
  destruct (POST_cases e cache t apiKey provider Ht) as [(c & _ & _ & ->)|[_ ->]].
  { apply Hshape; cbn; try done; [lia|]. left. split; [done|by eexists _, _]. }
  pose proof (summarizeWithLLM_calls e t apiKey (provider_or_default provider)) as Hlen.
  destruct (post_miss_cases e (cleanExpiredCache (now_sweep e) cache) t (hashText t)
              apiKey (provider_or_default provider))
    as [(_ & Hcalls & _ & Hresp)|[(s' & Hllm & _ & _ & Hresp)|(m & Hllm & _ & _ & Hresp)]];
    apply Hshape; rewrite ?Hresp, ?Hcalls; cbn; try done;
    try (rewrite Hllm in Hlen; exact Hlen).
  - lia.
  - right. split; [by left|by eexists].
  - left. split; [done|by eexists _, _].
  - right. split; [by right|by eexists].
Qed.

Lemma POST_answer_shape_witness :
  calls (POST Demo.world ∅ (Body (Js.Str "hello") Js.Null (Js.Str "groq"))) = [].
Proof.
  apply (proj1 (proj2 (proj2 (proj2
           (POST_answer_shape Demo.world ∅ (Body (Js.Str "hello") Js.Null (Js.Str "groq"))))))).
  reflexivity.
Defined.

(** X7.  Summaries are never empty: if no entry of the cache has an empty
    summary, no request leaves one that has, and every summary a request
    answers with is non-empty (an upstream answer without text is replaced
    by [Summary not available]). *)
Theorem summaries_stay_nonempty e cache req :
  summaries_nonempty cache ->
  summaries_nonempty (cache_after (POST e cache req))
  /\ forall s cached, body (resp (POST e cache req)) = Summary s cached -> s <> "".
Proof.
  intros Hcache.
  assert (summaries_nonempty (cleanExpiredCache (now_sweep e) cache)) as Hswept.
  { intros k c [Hc _]%sweep_lookup_Some. by apply (Hcache k). }
  destruct req as [message|text apiKey provider]; [done|].
  destruct (valid_text text) as [t|] eqn:Htext.
  2:{ unfold POST. rewrite Htext. done. }
  apply valid_text_Some in Htext as [-> Ht].
  destruct (POST_cases e cache t apiKey provider Ht) as [(c & Hc & _ & ->)|[_ ->]].
  { split; [done|]. cbn. intros s cached [= <- _]. by apply (Hswept _ _ Hc). }
  destruct (post_miss_cases e (cleanExpiredCache (now_sweep e) cache) t (hashText t)
              apiKey (provider_or_default provider))
    as [(_ & _ & -> & ->)|[(s' & Hllm & _ & -> & ->)|(m & _ & _ & -> & ->)]]; [done| |done].
  apply summarizeWithLLM_nonempty in Hllm.
  split.
  - intros k c. destruct (decide (hashText t = k)) as [<-|Hne].
    + rewrite lookup_insert_eq. by intros [= <-].
    + rewrite lookup_insert_ne by done. apply Hswept.
  - cbn. by intros s cached [= <- _].
Qed.

Lemma summaries_stay_nonempty_witness :
  summaries_nonempty
    (cache_after (POST Demo.world Demo.fresh_cache
                    (Body (Js.Str "Aa") (Js.Str "sk-demo") Js.Undefined)))
  /\ forall s cached,
       body (resp (POST Demo.world Demo.fresh_cache
                     (Body (Js.Str "Aa") (Js.Str "sk-demo") Js.Undefined))) = Summary s cached ->
       s <> "".
Proof.
  apply (summaries_stay_nonempty Demo.world Demo.fresh_cache
           (Body (Js.Str "Aa") (Js.Str "sk-demo") Js.Undefined)).
  intros k c Hc. unfold Demo.fresh_cache in Hc.
  apply lookup_singleton_Some in Hc as [_ <-]. discriminate.
Defined.



(** The four shapes of an answer. *)
Lemma POST_resp_cases e cache req :
  (exists k c, cache !! k = Some c
               /\ resp (POST e cache req) = json (Summary (summary c) true))
  \/ (exists s, s <> "" /\ resp (POST e cache req) = json (Summary s false))
  \/ (exists m, resp (POST e cache req) = json_status (Error m) 400)
  \/ (exists m, resp (POST e cache req) = json_status (Error m) 500).
Proof.
  destruct req as [message|text apiKey provider].
  { right. right. right. by eexists. }
  destruct (valid_text text) as [t|] eqn:Htext.
  2:{ right. right. left. unfold POST. rewrite Htext. by eexists. }
  apply valid_text_Some in Htext as [-> Ht].
  destruct (POST_cases e cache t apiKey provider Ht)
    as [(c & [Hc _]%sweep_lookup_Some & _ & ->)|[_ ->]].
  { left. by exists (hashText t), c. }
  destruct (post_miss_cases e (cleanExpiredCache (now_sweep e) cache) t (hashText t)
              apiKey (provider_or_default provider))
    as [(_ & _ & _ & ->)|[(s' & Hllm & _ & _ & ->)|(m & _ & _ & _ & ->)]].
  - right. right. left. by eexists.
  - right. left. exists s'. split; [|done]. by apply summarizeWithLLM_nonempty in Hllm.
  - right. right. right. by eexists.
Qed.

(** The guard is the only source of the [Text is required] answer. *)
Lemma POST_text_accepted e cache t apiKey provider :
  t <> "" ->
  resp (POST e cache (Body (Js.Str t) apiKey provider))
    <> json_status (Error "Text is required") 400.
Proof.
  intros Ht.
  destruct (POST_cases e cache t apiKey provider Ht) as [(c & _ & _ & ->)|[_ ->]]; [done|].
  destruct (post_miss_cases e (cleanExpiredCache (now_sweep e) cache) t (hashText t)
              apiKey (provider_or_default provider))
    as [(_ & _ & _ & ->)|[(s' & _ & _ & _ & ->)|(m & _ & _ & _ & ->)]]; done.
Qed.

End SummarizeFacts.

(** ** The GitHub fetcher *)

Module GitHubFacts.
Import GitHub JsFacts.

Lemma has_false_under n (m : Js.Map GitHubRepo) :
  Js.has m n = false <-> entries_under n m = [].
Proof.
  unfold entries_under. induction m as [|[k v] m IH]; cbn [Js.has]; [done|].
  rewrite filter_cons. cbn [fst].
  destruct (String.eqb_spec k n) as [->|Hne].
  - rewrite decide_True by done. done.
  - rewrite decide_False by done. done.
Qed.

Lemma add_repo_under n (m : Js.Map GitHubRepo) r :
  entries_under n (add_repo m r) =
    match entries_under n m with
    | [] => if String.eqb (full_name r) n then [(n, r)] else []
    | es => es
    end.
Proof.
  unfold add_repo. destruct (Js.has m (full_name r)) eqn:Hhas; cbn [negb].
  - destruct (String.eqb_spec (full_name r) n) as [<-|Hne];
      [|by destruct (entries_under n m)].
    destruct (entries_under (full_name r) m) eqn:Hu; [|done].
    apply has_false_under in Hu. congruence.
  - rewrite set_fresh by done.
    assert (entries_under n (m ++ [(full_name r, r)]) =
            entries_under n m ++ entries_under n [(full_name r, r)]) as ->
      by apply filter_app.
    unfold entries_under at 2. rewrite filter_cons, filter_nil. cbn [fst].
    destruct (String.eqb_spec (full_name r) n) as [<-|Hne].
    + rewrite decide_True by done.
      apply has_false_under in Hhas. by rewrite Hhas.
    + rewrite decide_False by done. rewrite app_nil_r.
      by destruct (entries_under n m).
Qed.

Lemma foldl_add_repo_under n l : forall m : Js.Map GitHubRepo,
  entries_under n (foldl add_repo m l) =
    match entries_under n m with
    | [] => option_list ((fun r => (n, r)) <$> first_named n l)
    | es => es
    end.
Proof.
  induction l as [|r l IH]; intros m; cbn [foldl].
  - by destruct (entries_under n m).
  - rewrite IH, add_repo_under. unfold first_named. cbn [find].
    destruct (entries_under n m); [|done].
    by destruct (String.eqb (full_name r) n).
Qed.

Lemma merge_all_delivered results : forall m,
  foldl merge_query m results = foldl add_repo m (delivered results).
Proof.
  unfold delivered.
  induction results as [|r results IH]; intros m; [done|].
  cbn [foldl]. rewrite IH.
  change ((r :: results) ≫= ?f) with (f r ++ (results ≫= f)).
  rewrite foldl_app. by destruct r.
Qed.

(** The key of every entry is the full name of its repo. *)
Lemma merge_all_keyed results k r :
  (k, r) ∈ merge_all results -> k = full_name r.
Proof.
  unfold merge_all. rewrite merge_all_delivered.
  assert (forall l (m : Js.Map GitHubRepo),
            (forall k r, (k, r) ∈ m -> k = full_name r) ->
            forall k r, (k, r) ∈ foldl add_repo m l -> k = full_name r) as H.
  { induction l as [|x l IH]; intros m Hm; [done|]. cbn [foldl]. apply IH.
    intros k' r'. unfold add_repo.
    destruct (Js.has m (full_name x)) eqn:Hhas; cbn [negb]; [apply Hm|].
    rewrite set_fresh by done. rewrite elem_of_app, list_elem_of_singleton.
    intros [?|[= -> ->]]; [by apply Hm|done]. }
  apply H. intros ? ? Hin. by apply elem_of_nil in Hin.
Qed.

Lemma merge_all_under results n :
  entries_under n (merge_all results) =
    option_list ((fun r => (n, r)) <$> first_named n (delivered results)).
Proof.
  unfold merge_all. rewrite merge_all_delivered.
  by rewrite foldl_add_repo_under.
Qed.

(** Two merged repos of one name are one repo. *)
Lemma merge_all_name_unique results r1 r2 :
  r1 ∈ Js.values (merge_all results) -> r2 ∈ Js.values (merge_all results) ->
  full_name r1 = full_name r2 -> r1 = r2.
Proof.
  intros [k1 H1]%elem_of_values [k2 H2]%elem_of_values Hname.
  pose proof (merge_all_keyed _ _ _ H1) as ->.
  pose proof (merge_all_keyed _ _ _ H2) as ->.
  assert (forall r, (full_name r1, r) ∈ merge_all results ->
            first_named (full_name r1) (delivered results) = Some r) as Hfirst.
  { intros r Hr.
    assert ((full_name r1, r) ∈ entries_under (full_name r1) (merge_all results)) as Hin
      by (apply list_elem_of_filter; done).
    rewrite merge_all_under in Hin.
    destruct (first_named _ _) as [r'|]; cbn in Hin.
    - apply list_elem_of_singleton in Hin. congruence.
    - by apply elem_of_nil in Hin. }
  rewrite <- Hname in H2.
  pose proof (Hfirst _ H1). pose proof (Hfirst _ H2). congruence.
Qed.

Lemma has_ai_topic_existsb repo :
  has_ai_topic repo = existsb (Js.includes (topicLower repo)) ai_keywords.
Proof.
  unfold has_ai_topic, ai_keywords. cbn [existsb].
  rewrite orb_false_r, <- !orb_assoc. reflexivity.
Qed.

Lemma elem_of_ranked allRepos p :
  p ∈ ranked allRepos <->
  exists repo, repo ∈ Js.values allRepos /\ has_ai_topic repo = true /\ p = to_project repo.
Proof.
  unfold ranked. rewrite elem_of_sort, map_fmap, list_elem_of_fmap.
  split.
  - intros (repo & -> & [Hai Hin]%list_elem_of_filter). by exists repo.
  - intros (repo & Hin & Hai & ->). exists repo. split; [done|].
    by apply list_elem_of_filter.
Qed.

Lemma first_named_app n l1 l2 :
  first_named n (l1 ++ l2) =
    match first_named n l1 with
    | Some r => Some r
    | None => first_named n l2
    end.
Proof.
  unfold first_named. induction l1 as [|r l1 IH]; [done|].
  cbn [app find]. by destruct (String.eqb (full_name r) n).
Qed.

Lemma delivered_app rs1 rs2 : delivered (rs1 ++ rs2) = delivered rs1 ++ delivered rs2.
Proof. unfold delivered. apply bind_app. Qed.

Lemma to_project_has_ai_topic r1 r2 :
  to_project r1 = to_project r2 -> has_ai_topic r1 = has_ai_topic r2.
Proof.
  intros H. unfold has_ai_topic, topicLower.
  assert (default [] (repo_topics r1) = default [] (repo_topics r2)) as ->; [|done].
  by injection H.
Qed.

(** C5.  The merged map holds, under any full name, exactly one entry if
    some query delivered a repo of that name and none otherwise, and that
    entry is the first such repo in the order of the queries (and of the
    items within a query).  So once a query delivers [a] as the first repo
    named [n], the entry under [n] is [a] whatever later queries deliver
    under that name. *)
Theorem github_merge_first_occurrence_wins :
  (forall results n,
     entries_under n (merge_all results) =
       match first_named n (delivered results) with
       | Some first => [(n, first)]
       | None => []
       end)
  /\ (forall earlier q1 later n a,
     first_named n (delivered earlier) = None ->
     first_named n q1 = Some a ->
     entries_under n (merge_all (earlier ++ Items (Some q1) :: later)) = [(n, a)]).
Proof.
  assert (forall results n,
     entries_under n (merge_all results) =
       match first_named n (delivered results) with
       | Some first => [(n, first)]
       | None => []
       end) as Hall.
  { intros results n. rewrite merge_all_under. by destruct (first_named _ _). }
  split; [done|].
  intros earlier q1 later n a Hearlier Hq1. rewrite Hall.
  change (Items (Some q1) :: later) with ([Items (Some q1)] ++ later).
  rewrite !delivered_app, !first_named_app, Hearlier.
  assert (delivered [Items (Some q1)] = q1) as -> by apply app_nil_r.
  by rewrite Hq1.
Qed.

Lemma github_merge_first_occurrence_wins_witness :
  entries_under "acme/vision"
    (merge_all ([] ++ Items (Some [Demo.repo "vision" 50 ["AI"; "Computer-Vision"];
                                   Demo.repo "shop" 70 ["web"; "store"]])
                   :: map Demo.search (tail (queries "2024-06-01")))) =
    [("acme/vision", Demo.repo "vision" 50 ["AI"; "Computer-Vision"])].
Proof.
  apply (proj2 github_merge_first_occurrence_wins []
           [Demo.repo "vision" 50 ["AI"; "Computer-Vision"];
            Demo.repo "shop" 70 ["web"; "store"]]
           (map Demo.search (tail (queries "2024-06-01")))
           "acme/vision"
           (Demo.repo "vision" 50 ["AI"; "Computer-Vision"])).
  - reflexivity.
  - reflexivity.
Defined.

(** C6.  The post-filter passes a repo exactly when one of the eight
    keywords is a substring of its topics, lower-cased and joined.  A repo
    that it does not pass yields no project of the final list, whichever
    query delivered it, and no project of the final list bears the name of a
    merged repo that it does not pass.  A merged repo that it passes is in
    the sorted list the final [slice] cuts, hence in the final list when
    that list has at most 50 elements. *)
Theorem github_topic_filter :
  (forall repo,
     has_ai_topic repo = true <->
     exists keyword, keyword ∈ ai_keywords /\ substring keyword (topicLower repo))
  /\ (forall dateStr search repo,
     has_ai_topic repo = false ->
     to_project repo ∉ projects (GET dateStr search))
  /\ (forall dateStr search repo p,
     repo ∈ Js.values (merge_all (map search (queries dateStr))) ->
     has_ai_topic repo = false ->
     p ∈ projects (GET dateStr search) ->
     name p <> full_name repo)
  /\ (forall dateStr search repo,
     repo ∈ Js.values (merge_all (map search (queries dateStr))) ->
     has_ai_topic repo = true ->
     to_project repo ∈ ranked (merge_all (map search (queries dateStr)))
     /\ ((length (ranked (merge_all (map search (queries dateStr)))) <= 50)%nat ->
         to_project repo ∈ projects (GET dateStr search))).
Proof.
  assert (forall dateStr search p,
            p ∈ projects (GET dateStr search) ->
            exists repo, repo ∈ Js.values (merge_all (map search (queries dateStr)))
                         /\ has_ai_topic repo = true /\ p = to_project repo) as Horigin.
  { intros dateStr search p Hp. apply elem_of_ranked.
    cbn [GET projects] in Hp. unfold projects_of, Js.slice0 in Hp.
    by apply (subseteq_take 50). }
  split; [|split; [|split]].
  - intros repo. rewrite has_ai_topic_existsb, existsb_exists. split.
    + intros (keyword & Hin & Hinc). exists keyword.
      split; [by apply list_elem_of_In | by apply includes_spec].
    + intros (keyword & Hin & Hsub). exists keyword.
      split; [by apply list_elem_of_In | by apply includes_spec].
  - intros dateStr search repo Hno Hin.
    apply Horigin in Hin as (repo' & _ & Hai & Heq).
    apply to_project_has_ai_topic in Heq. congruence.
  - intros dateStr search repo p Hrepo Hno Hp Hname.
    apply Horigin in Hp as (repo' & Hrepo' & Hai & ->).
    cbn [to_project name] in Hname.
    assert (repo' = repo) as -> by by apply (merge_all_name_unique _ _ _ Hrepo' Hrepo).
    congruence.
  - intros dateStr search repo Hrepo Hai.
    assert (to_project repo ∈ ranked (merge_all (map search (queries dateStr)))) as Hin
      by (apply elem_of_ranked; by exists repo).
    split; [done|]. intros Hlen.
    cbn [GET projects]. unfold projects_of, Js.slice0.
    by rewrite take_ge.
Qed.

Lemma github_topic_filter_witness :
  GitHub.to_project (Demo.repo "shop" 70 ["web"; "store"])
    ∉ projects (GET "2024-06-01" Demo.search).
Proof.
  apply (proj1 (proj2 github_topic_filter) "2024-06-01" Demo.search
           (Demo.repo "shop" 70 ["web"; "store"])).
  vm_compute. reflexivity.
Defined.

(** C7.  Whatever the searches deliver, the projects the route returns
    descend by stars (each one has at least the stars of every later one)
    and are at most 50; [count] is their number. *)
Theorem github_projects_sorted_and_capped dateStr search :
  StronglySorted stars_ge (projects (GET dateStr search))
  /\ (length (projects (GET dateStr search)) <= 50)%nat
  /\ count (GET dateStr search) = length (projects (GET dateStr search)).
Proof.
  cbn [GET projects count]. unfold projects_of, Js.slice0. split; [|split; [|done]].
  - apply StronglySorted_take. unfold ranked. apply sort_StronglySorted.
  - rewrite length_take. lia.
Qed.

(** *** What the route returns *)

Lemma add_repo_keys (m : Js.Map GitHubRepo) r :
  NoDup m.*1 -> NoDup (add_repo m r).*1.
Proof.
  intros Hm. unfold add_repo.
  destruct (Js.has m (full_name r)) eqn:Hhas; cbn [negb]; [done|].
  rewrite set_fresh by done. rewrite fmap_app. apply NoDup_app.
  split; [done|]. split; [|apply NoDup_singleton].
  intros k Hk Hin. cbn in Hin. apply list_elem_of_singleton in Hin as ->.
  apply list_elem_of_fmap in Hk as ([k v] & Hk & Hin). cbn in Hk. subst k.
  assert (Js.has m (full_name r) = true) by (apply has_true; by exists v). congruence.
Qed.

Lemma merge_all_keys results : NoDup (merge_all results).*1.
Proof.
  unfold merge_all. rewrite merge_all_delivered.
  assert (forall l (m : Js.Map GitHubRepo), NoDup m.*1 -> NoDup (foldl add_repo m l).*1) as H.
  { induction l as [|r l IH]; intros m Hm; [done|]. cbn [foldl]. by apply IH, add_repo_keys. }
  apply H. constructor.
Qed.

Lemma merge_all_names results :
  full_name <$> Js.values (merge_all results) = (merge_all results).*1.
Proof.
  pose proof (merge_all_keyed results) as Hkeyed.
  induction (merge_all results) as [|[k r] m IH]; [done|].
  cbn. f_equal.
  - symmetry. apply Hkeyed. by left.
  - apply IH. intros k' r' Hin. apply Hkeyed. by right.
Qed.

Lemma ranked_names allRepos :
  name <$> ranked allRepos ≡ₚ
  full_name <$> filter (fun repo => has_ai_topic repo = true) (Js.values allRepos).
Proof.
  unfold ranked. rewrite sort_Permutation.
  change (map to_project ?l) with (to_project <$> l).
  by rewrite <- list_fmap_compose.
Qed.

Lemma ranked_sorted allRepos : StronglySorted stars_ge (ranked allRepos).
Proof. apply sort_StronglySorted. Qed.

Lemma keyword_shape keyword :
  keyword ∈ ai_keywords -> keyword <> "" /\ has_char " " keyword = false.
Proof.
  unfold ai_keywords. intros H.
  repeat (apply elem_of_cons in H as [->|H]; [done|]).
  by apply elem_of_nil in H.
Qed.

(** X9.  No two projects of the GitHub answer bear the same name. *)
Theorem github_project_names_are_distinct dateStr search :
  NoDup (name <$> projects (GET dateStr search)).
Proof.
  cbn [GET projects]. unfold projects_of, Js.slice0.
  rewrite fmap_take. eapply sublist_NoDup; [|apply sublist_take].
  rewrite ranked_names. apply NoDup_fmap_filter.
  rewrite merge_all_names. apply merge_all_keys.
Qed.

(** X10.  A search that failed (it threw, or its response was not ok, or
    it had no [items]) is skipped: the merged map is what the other searches
    alone would give.  When every search fails the route still answers 200,
    with no project. *)
Theorem failed_searches_are_skipped :
  (forall before after,
     merge_all (before ++ Threw :: after) = merge_all (before ++ after))
  /\ (forall before after status,
     merge_all (before ++ NotOk status :: after) = merge_all (before ++ after))
  /\ (forall before after,
     merge_all (before ++ Items None :: after) = merge_all (before ++ after))
  /\ (forall dateStr search,
     (forall q, q ∈ queries dateStr ->
        search q = Threw \/ exists status, search q = NotOk status) ->
     GET dateStr search = {| status := 200; projects := []; count := 0 |}).
Proof.
  assert (forall before after r,
            delivered [r] = [] ->
            merge_all (before ++ r :: after) = merge_all (before ++ after)) as Hskip.
  { intros before after r Hr. unfold merge_all. rewrite !merge_all_delivered.
    change (r :: after) with ([r] ++ after).
    by rewrite !delivered_app, Hr. }
  split; [|split; [|split]].
  - intros. by apply Hskip.
  - intros. by apply Hskip.
  - intros. by apply Hskip.
  - intros dateStr search Hfail.
    assert (merge_all (map search (queries dateStr)) = []) as Hnone.
    { unfold merge_all. rewrite merge_all_delivered.
      assert (delivered (map search (queries dateStr)) = []) as ->; [|done].
      rewrite map_fmap. revert Hfail.
      induction (queries dateStr) as [|q qs IH]; intros Hfail; [done|].
      rewrite fmap_cons. change (search q :: (search <$> qs)) with ([search q] ++ (search <$> qs)).
      rewrite delivered_app, IH by (intros q' Hq'; apply Hfail; by right).
      destruct (Hfail q) as [->|[status ->]]; [by left|done|done]. }
    unfold GET. by rewrite Hnone.
Qed.

Lemma failed_searches_are_skipped_witness :
  GET "2024-06-01" (fun _ => NotOk 403) = {| status := 200; projects := []; count := 0 |}.
Proof.
  apply (proj2 (proj2 (proj2 failed_searches_are_skipped)) "2024-06-01" (fun _ => NotOk 403)).
  intros q _. right. exists 403. reflexivity.
Defined.

(** X11.  The post-filter looks at the topics one by one after all, and
    without regard to case: a repo passes exactly when one of its topics,
    lower-cased, contains one of the keywords.  (No keyword holds a space,
    so none can be found across the space between two topics.) *)
Theorem post_filter_is_per_topic repo :
  has_ai_topic repo = true <->
  exists topic keyword,
    topic ∈ default [] (repo_topics repo) /\ keyword ∈ ai_keywords
    /\ substring keyword (Js.toLowerCase topic).
Proof.
  rewrite has_ai_topic_existsb, existsb_exists. unfold topicLower. split.
  - intros (keyword & Hkw%list_elem_of_In & Hinc).
    destruct (keyword_shape _ Hkw) as [Hne Hspace].
    change " " with (String " " "") in Hinc.
    rewrite includes_join, existsb_exists in Hinc by done.
    destruct Hinc as (t & Ht%list_elem_of_In & Hinc).
    rewrite map_fmap in Ht. apply list_elem_of_fmap in Ht as (topic & -> & Htopic).
    exists topic, keyword. split; [done|]. split; [done|]. by apply includes_spec.
  - intros (topic & keyword & Htopic & Hkw & Hsub).
    destruct (keyword_shape _ Hkw) as [Hne Hspace].
    exists keyword. split; [by apply list_elem_of_In|].
    change " " with (String " " "").
    rewrite includes_join, existsb_exists by done.
    exists (Js.toLowerCase topic). split; [|by apply includes_spec].
    apply list_elem_of_In. rewrite map_fmap. by apply list_elem_of_fmap_2.
Qed.

Lemma post_filter_is_per_topic_witness :
  has_ai_topic (Demo.repo "mailer" 12 ["Email"; "SMTP"]) = true.
Proof.
  apply (proj2 (post_filter_is_per_topic (Demo.repo "mailer" 12 ["Email"; "SMTP"]))).
  exists "Email", "ai". split; [by left|]. split; [by left|].
  exists "em", "l". reflexivity.
Defined.

(** X12.  Every project of the GitHub answer is tagged [github] and has a
    description and a language that are not empty: a repo without one gets
    [No description available], respectively [Unknown]. *)
Theorem github_projects_are_filled_in dateStr search p :
  p ∈ projects (GET dateStr search) ->
  source p = Some "github" /\ description p <> "" /\ language p <> ""
  /\ exists repo, repo ∈ delivered (map search (queries dateStr))
                  /\ name p = full_name repo /\ stars p = stargazers_count repo
                  /\ has_ai_topic repo = true.
Proof.
  intros Hp. cbn [GET projects] in Hp. unfold projects_of, Js.slice0 in Hp.
  apply (subseteq_take 50), elem_of_ranked in Hp as (repo & Hrepo & Hai & ->).
  split; [done|]. split; [by apply str_or_nonempty|]. split; [by apply str_or_nonempty|].
  exists repo. split; [|done].
  apply elem_of_values in Hrepo as [k Hk].
  pose proof (merge_all_keyed _ _ _ Hk) as ->.
  assert ((full_name repo, repo) ∈ entries_under (full_name repo)
            (merge_all (map search (queries dateStr)))) as Hin
    by (by apply list_elem_of_filter).
  rewrite merge_all_under in Hin. unfold first_named in Hin.
  destruct (find _ _) as [r|] eqn:Hfind; cbn in Hin; [|by apply elem_of_nil in Hin].
  apply list_elem_of_singleton in Hin as [= <-].
  apply find_some in Hfind as [Hfind _]. by apply list_elem_of_In.
Qed.

Lemma github_projects_are_filled_in_witness :
  source (GitHub.to_project (Demo.repo "vision" 50 ["AI"; "Computer-Vision"])) = Some "github".
Proof.
  apply (github_projects_are_filled_in "2024-06-01" Demo.search
           (GitHub.to_project (Demo.repo "vision" 50 ["AI"; "Computer-Vision"]))).
  vm_compute. left.
Defined.

(** X13.  The cut to 50 keeps the most popular: the answer is the first 50
    of the sorted list of the projects that pass the filter (all of them when
    there are no more than 50), and no project cut off has more stars than a
    project kept. *)
Theorem github_keeps_the_top_50 dateStr search :
  let ranked := ranked (merge_all (map search (queries dateStr))) in
  projects (GET dateStr search) = take 50 ranked
  /\ length (projects (GET dateStr search)) = min 50 (length ranked)
  /\ forall kept cut,
       kept ∈ projects (GET dateStr search) -> cut ∈ drop 50 ranked ->
       stars cut <= stars kept.
Proof.
  cbv zeta. cbn [GET projects]. unfold projects_of, Js.slice0.
  split; [done|]. split; [apply length_take|].
  intros kept cut Hkept Hcut.
  pose proof (ranked_sorted (merge_all (map search (queries dateStr)))) as Hsorted.
  rewrite <- (take_drop 50) in Hsorted.
  by apply (StronglySorted_app_1_elem_of _ _ _ _ _ Hsorted).
Qed.

Lemma github_keeps_the_top_50_witness :
  length (projects (GET "2024-06-01" Demo.search)) = 1%nat.
Proof.
  rewrite (proj1 (proj2 (github_keeps_the_top_50 "2024-06-01" Demo.search))).
  vm_compute. reflexivity.
Defined.

End GitHubFacts.

(** ** The Hugging Face fetcher *)

Module HuggingFaceFacts.
Import HuggingFace JsFacts.

Lemma foldl_push_space spaces : forall allProjects,
  foldl push_space allProjects spaces =
    allProjects ++ map to_project (filter (fun space => kept space = true) spaces).
Proof.
  induction spaces as [|space spaces IH]; intros allProjects; cbn [foldl].
  - by rewrite app_nil_r.
  - rewrite IH, filter_cons. unfold push_space.
    destruct (kept space) eqn:Hkept.
    + rewrite decide_True by done. by rewrite <- app_assoc.
    + rewrite decide_False by done. done.
Qed.

Lemma kept_spec space :
  kept space = true <-> 0 < likes_of space /\ spaceId_of space <> "".
Proof.
  unfold kept. rewrite andb_true_iff, Z.ltb_lt, negb_true_iff, String.eqb_neq.
  done.
Qed.

Lemma projects_of_spaces spaces :
  projects (GET (Spaces spaces)) =
    Js.sort by_stars_desc (map to_project (filter (fun space => kept space = true) spaces)).
Proof. cbn [GET projects]. by rewrite foldl_push_space. Qed.

Lemma spaceId_of_id space i : space_id space = Some i -> i <> "" -> spaceId_of space = i.
Proof.
  intros Hid Hi. apply String.eqb_neq in Hi.
  unfold spaceId_of, Js.str_or_opt. rewrite Hid, Hi.
  unfold Js.str_or. by rewrite Hi.
Qed.

(** C8.  The route returns the projects of the fetched spaces that pass
    its test, sorted.  A fetched space appears in the output exactly when
    its popularity ([likes], else [likeCount], else [like_count], else 0) is
    above 0 and its identifier (the route's [spaceId]: [id], else [name]) is
    not empty.  In particular a space of popularity 0 does not appear, and a
    fetched space of popularity 1 with a non-empty [id] does. *)
Theorem hub_keeps_liked_spaces_with_id :
  (forall spaces,
     projects (GET (Spaces spaces)) =
       Js.sort by_stars_desc (map to_project (filter (fun space => kept space = true) spaces)))
  /\ (forall spaces space,
     space ∈ spaces ->
     (to_project space ∈ projects (GET (Spaces spaces)) <->
      0 < likes_of space /\ spaceId_of space <> ""))
  /\ (forall spaces space,
     likes_of space = 0 -> to_project space ∉ projects (GET (Spaces spaces)))
  /\ (forall spaces space i,
     space ∈ spaces -> likes_of space = 1 -> space_id space = Some i -> i <> "" ->
     to_project space ∈ projects (GET (Spaces spaces))).
Proof.
  assert (forall spaces space,
            to_project space ∈ projects (GET (Spaces spaces)) ->
            0 < likes_of space /\ spaceId_of space <> "") as Hin.
  { intros spaces space. rewrite projects_of_spaces, elem_of_sort, map_fmap.
    intros (space' & Heq & [Hkept _]%list_elem_of_filter)%list_elem_of_fmap.
    apply kept_spec in Hkept as [Hlikes Hid].
    assert (likes_of space = likes_of space') as -> by by injection Heq.
    assert (spaceId_of space = spaceId_of space') as -> by by injection Heq.
    done. }
  assert (forall spaces space,
            space ∈ spaces -> 0 < likes_of space /\ spaceId_of space <> "" ->
            to_project space ∈ projects (GET (Spaces spaces))) as Hout.
  { intros spaces space Hspace Hkept%kept_spec.
    rewrite projects_of_spaces, elem_of_sort, map_fmap.
    apply list_elem_of_fmap. exists space. split; [done|].
    by apply list_elem_of_filter. }
  split; [apply projects_of_spaces|]. split; [|split].
  - intros spaces space Hspace. split; [apply Hin | by apply Hout].
  - intros spaces space Hzero Hmem. apply Hin in Hmem. lia.
  - intros spaces space i Hspace Hone Hid Hi. apply Hout; [done|].
    rewrite (spaceId_of_id _ _ Hid Hi). split; [lia|done].
Qed.

Lemma hub_keeps_liked_spaces_with_id_witness :
  HuggingFace.to_project (Demo.space 1)
    ∈ projects (GET (Spaces [Demo.space 0; Demo.space 1])).
Proof.
  apply (proj2 (proj2 (proj2 hub_keeps_liked_spaces_with_id))
           [Demo.space 0; Demo.space 1] (Demo.space 1) "acme/demo").
  - right. left.
  - reflexivity.
  - reflexivity.
  - discriminate.
Defined.

(** *** What the route returns *)

Lemma has_char_app c a b : has_char c (a +:+ b) = has_char c a || has_char c b.
Proof.
  induction a as [|x a IH]; [done|].
  rewrite app_String. cbn [has_char]. by rewrite IH, orb_assoc.
Qed.

Lemma replace_slashes_no_slash s : has_char "/" (Js.replace_slashes s) = false.
Proof.
  induction s as [|c s IH]; [done|]. cbn [Js.replace_slashes has_char]. rewrite IH.
  by destruct (Ascii.eqb_spec c "/") as [->|Hne]; [|apply orb_false_iff; split;
    [by apply Ascii.eqb_neq|]].
Qed.

Lemma elem_of_projects r p :
  p ∈ projects (GET r) ->
  exists spaces space, r = Spaces spaces /\ space ∈ spaces
                       /\ kept space = true /\ p = to_project space.
Proof.
  destruct r as [|status|spaces]; [by intros ?%elem_of_nil..|].
  rewrite projects_of_spaces, elem_of_sort, map_fmap.
  intros (space & -> & [Hkept Hin]%list_elem_of_filter)%list_elem_of_fmap.
  by exists spaces, space.
Qed.

(** X14.  The hub route always answers 200 with its projects in
    descending order of likes and their number as [count]; it keeps every
    space that passes its test, however many (there is no cut as in the
    GitHub route), and answers with no project when the request to the hub
    threw or was not ok. *)
Theorem hub_answer_is_sorted_and_whole :
  (forall r, status (GET r) = 200 /\ count (GET r) = length (projects (GET r))
             /\ StronglySorted stars_ge (projects (GET r)))
  /\ (forall spaces,
        projects (GET (Spaces spaces))
          ≡ₚ map to_project (filter (fun space => kept space = true) spaces))
  /\ projects (GET Threw) = []
  /\ (forall status, projects (GET (NotOk status)) = []).
Proof.
  split; [|split; [|done]].
  - intros r. split; [done|]. split; [done|]. apply sort_StronglySorted.
  - intros spaces. rewrite projects_of_spaces. apply sort_Permutation.
Qed.

(** X15.  Every project of the hub answer has at least one like, a name
    that is not empty, the identifier [hf_space_] followed by the name with
    its slashes replaced (so the identifier holds no slash), the URL of the
    space, a description and a language that are not empty, the three fixed
    topics and the tag [huggingface_spaces]. *)
Theorem hub_projects_are_filled_in r p :
  p ∈ projects (GET r) ->
  0 < stars p /\ name p <> ""
  /\ id p = "hf_space_" +:+ Js.replace_slashes (name p)
  /\ has_char "/" (id p) = false
  /\ url p = "https://huggingface.co/spaces/" +:+ name p
  /\ description p <> "" /\ language p <> ""
  /\ topics p = ["space"; "demo"; "ai"]
  /\ source p = Some "huggingface_spaces".
Proof.
  intros (spaces & space & _ & _ & [Hlikes Hid]%kept_spec & ->)%elem_of_projects.
  cbn [to_project stars name id url description language topics source].
  repeat split; try done.
  - by rewrite has_char_app, replace_slashes_no_slash.
  - by apply str_or_nonempty.
  - by apply str_or_nonempty.
Qed.

Lemma hub_projects_are_filled_in_witness :
  id (HuggingFace.to_project (Demo.space 1)) = "hf_space_acme_demo".
Proof.
  assert (HuggingFace.to_project (Demo.space 1)
            ∈ projects (GET (Spaces [Demo.space 0; Demo.space 1]))) as Hin
    by (vm_compute; left).
  rewrite (proj1 (proj2 (proj2 (hub_projects_are_filled_in _ _ Hin)))).
  reflexivity.
Defined.

End HuggingFaceFacts.

(** ** The page *)

Module PageFacts.
Import Page JsFacts.



(** X16.  However the two calls end, [fetchProjects] leaves [loading]
    off and one of two states: no error and the two delivered lists merged
    (every project of either list, as often as it was delivered, nothing
    else) in descending order of stars; or an error and the list that was
    shown before. *)
Theorem fetchProjects_shows_all_or_keeps_the_list s f :
  loading (fetchProjects s f) = false
  /\ ((error (fetchProjects s f) = None
       /\ exists git hub,
            projects_from (github f) = Shown git
            /\ projects_from (huggingface f) = Shown hub
            /\ projects (fetchProjects s f) ≡ₚ git ++ hub
            /\ length (projects (fetchProjects s f)) = (length git + length hub)%nat
            /\ StronglySorted stars_ge (projects (fetchProjects s f)))
      \/ (exists message, error (fetchProjects s f) = Some message)
         /\ projects (fetchProjects s f) = projects s).
Proof.
  unfold fetchProjects.
  destruct (try_block f) as [allProjects|message] eqn:Htry; cbn; split; try done.
  - left. split; [done|]. revert Htry. unfold try_block.
    destruct (github f) as [?|?|?|git], (huggingface f) as [?|?|?|hub]; cbn; try done;
      intros [= <-]; eexists _, _; (split; [done|]); (split; [done|]);
      (split; [apply sort_Permutation|]);
      (split; [rewrite length_sort, ?length_app; cbn [length]; lia
              | apply sort_StronglySorted]).
  - right. split; [by exists message|done].
Qed.

End PageFacts.

(** ** The settings dialog *)

Module SettingsFacts.
Import Settings JsFacts.

Lemma saved_storage localStorage s :
  Js.trim (apiKey s) <> "" ->
  (handleSave localStorage s).1 =
    <["apiProvider" := provider s]> (<["apiKey" := Js.trim (apiKey s)]> localStorage).
Proof.
  intros Hkey%String.eqb_neq. unfold handleSave. by rewrite Hkey.
Qed.

Lemma blank_storage localStorage s :
  Js.trim (apiKey s) = "" ->
  (handleSave localStorage s).1 = delete "apiProvider" (delete "apiKey" localStorage).
Proof.
  intros Hkey. unfold handleSave. by rewrite Hkey.
Qed.

Lemma str_or_Some s fallback : s <> "" -> Js.str_or (Some s) fallback = s.
Proof. intros Hs%String.eqb_neq. unfold Js.str_or. by rewrite Hs. Qed.

Lemma request_of_saved localStorage s project :
  Js.trim (apiKey s) <> "" -> provider s <> "" ->
  NewsCard.request_of (handleSave localStorage s).1 project =
    Summarize.Body (Js.Str (description project))
                   (Js.Str (Js.trim (apiKey s))) (Js.Str (provider s)).
Proof.
  intros Hkey Hprovider. rewrite saved_storage by done. unfold NewsCard.request_of.
  rewrite lookup_insert_eq, lookup_insert_ne, lookup_insert_eq by done.
  rewrite str_or_Some by done. apply String.eqb_neq in Hkey. by rewrite Hkey.
Qed.

(** X17.  What Save stores is what the dialog shows when it is opened
    again and what a card sends: the key without the white space around it
    and the provider chosen. *)
Theorem saved_settings_come_back localStorage s :
  Js.trim (apiKey s) <> "" -> provider s <> "" ->
  (forall s0,
     load (handleSave localStorage s).1 s0 =
       {| apiKey := Js.trim (apiKey s); provider := provider s; saved := saved s0 |})
  /\ (forall project,
     NewsCard.request_of (handleSave localStorage s).1 project =
       Summarize.Body (Js.Str (description project))
                      (Js.Str (Js.trim (apiKey s))) (Js.Str (provider s))).
Proof.
  intros Hkey Hprovider. split; [|intros; by apply request_of_saved].
  intros s0. rewrite saved_storage by done. unfold load.
  rewrite lookup_insert_eq, lookup_insert_ne, lookup_insert_eq by done.
  by rewrite !str_or_Some.
Qed.

Lemma saved_settings_come_back_witness :
  load (handleSave ∅ {| apiKey := "  sk-demo "; provider := "groq"; saved := false |}).1 initial
  = {| apiKey := "sk-demo"; provider := "groq"; saved := false |}.
Proof.
  apply (proj1 (saved_settings_come_back ∅
                  {| apiKey := "  sk-demo "; provider := "groq"; saved := false |}
                  ltac:(vm_compute; discriminate) ltac:(discriminate))).
Defined.

(** X18.  Saving a key that is blank does to the storage what Clear does:
    both settings are removed.  After that the dialog opens with the key
    field as it was initialised and the provider [openai], and a card sends
    no credential and the provider [openai]. *)
Theorem blank_save_clears localStorage s :
  (Js.trim (apiKey s) = "" ->
     (handleSave localStorage s).1 = (handleClear localStorage s).1)
  /\ (forall s0,
        load (handleClear localStorage s).1 s0 =
          {| apiKey := apiKey s0; provider := "openai"; saved := saved s0 |})
  /\ (forall project,
        NewsCard.request_of (handleClear localStorage s).1 project =
          Summarize.Body (Js.Str (description project)) Js.Undefined (Js.Str "openai")).
Proof.
  split; [by apply blank_storage|].
  cbn [handleClear fst]. unfold load, NewsCard.request_of.
  rewrite lookup_delete_eq, lookup_delete_ne, lookup_delete_eq by done.
  done.
Qed.

Lemma blank_save_clears_witness :
  (handleSave {[ "apiKey" := "sk-old" ]} {| apiKey := "   "; provider := "groq"; saved := false |}).1
  = (handleClear {[ "apiKey" := "sk-old" ]} {| apiKey := "   "; provider := "groq"; saved := false |}).1.
Proof.
  apply (proj1 (blank_save_clears {[ "apiKey" := "sk-old" ]}
                  {| apiKey := "   "; provider := "groq"; saved := false |})).
  vm_compute. reflexivity.
Defined.

(** X19.  Whatever the storage held, after Save or Clear it holds both
    settings, with a key that is not empty and has no white space around it,
    or neither; and no other item of the storage is touched. *)
Theorem settings_are_well_kept localStorage s :
  well_kept (handleSave localStorage s).1
  /\ well_kept (handleClear localStorage s).1
  /\ forall k, k <> "apiKey" -> k <> "apiProvider" ->
       (handleSave localStorage s).1 !! k = localStorage !! k
       /\ (handleClear localStorage s).1 !! k = localStorage !! k.
Proof.
  assert (well_kept (delete "apiProvider" (delete "apiKey" localStorage))) as Hcleared.
  { right. by rewrite lookup_delete_eq, lookup_delete_ne, lookup_delete_eq. }
  split; [|split; [done|]].
  - destruct (String.eqb_spec (Js.trim (apiKey s)) "") as [Hblank|Hkey].
    + by rewrite blank_storage.
    + rewrite saved_storage by done. left.
      exists (Js.trim (apiKey s)), (provider s).
      rewrite lookup_insert_eq, lookup_insert_ne, lookup_insert_eq by done.
      split; [done|]. split; [done|]. split; [done|apply trim_trimmed].
  - intros k Hk1 Hk2. split.
    + unfold handleSave. destruct (negb _); cbn [fst].
      * by rewrite !lookup_insert_ne.
      * by rewrite !lookup_delete_ne.
    + cbn [handleClear fst]. by rewrite !lookup_delete_ne.
Qed.

Lemma settings_are_well_kept_witness :
  (handleSave {[ "theme" := "dark" ]} {| apiKey := "sk-demo"; provider := "groq"; saved := false |}).1
    !! "theme" = Some "dark".
Proof.
  rewrite (proj1 (proj2 (proj2 (settings_are_well_kept {[ "theme" := "dark" ]}
             {| apiKey := "sk-demo"; provider := "groq"; saved := false |})) "theme"
             ltac:(discriminate) ltac:(discriminate))).
  reflexivity.
Defined.

(** X20.  Opening the dialog after a Save and saving again without a
    change leaves the storage as it is. *)
Theorem saving_again_changes_nothing localStorage s :
  provider s <> "" ->
  (handleSave (handleSave localStorage s).1
              (load (handleSave localStorage s).1 initial)).1
  = (handleSave localStorage s).1.
Proof.
  intros Hprovider.
  destruct (String.eqb_spec (Js.trim (apiKey s)) "") as [Hblank|Hkey].
  - rewrite (blank_storage localStorage s) by done.
    assert (forall s0,
              load (delete "apiProvider" (delete "apiKey" localStorage)) s0 =
                {| apiKey := apiKey s0; provider := "openai"; saved := saved s0 |}) as ->.
    { intros s0. unfold load.
      by rewrite lookup_delete_eq, lookup_delete_ne, lookup_delete_eq. }
    rewrite blank_storage by done.
    apply map_eq. intros k. rewrite !lookup_delete.
    by repeat case_decide.
  - rewrite (saved_storage localStorage s Hkey).
    assert (load (<["apiProvider" := provider s]>
                    (<["apiKey" := Js.trim (apiKey s)]> localStorage)) initial =
              {| apiKey := Js.trim (apiKey s); provider := provider s; saved := false |}) as ->.
    { unfold load.
      rewrite lookup_insert_eq, lookup_insert_ne, lookup_insert_eq by done.
      by rewrite !str_or_Some. }
    rewrite saved_storage by (cbn [apiKey]; by rewrite trim_idempotent).
    cbn [apiKey provider]. rewrite trim_idempotent.
    apply map_eq. intros k. rewrite !lookup_insert.
    by repeat case_decide.
Qed.

Lemma saving_again_changes_nothing_witness :
  (handleSave (handleSave ∅ {| apiKey := " sk-demo "; provider := "groq"; saved := false |}).1
     (load (handleSave ∅ {| apiKey := " sk-demo "; provider := "groq"; saved := false |}).1
           initial)).1
  = (handleSave ∅ {| apiKey := " sk-demo "; provider := "groq"; saved := false |}).1.
Proof.
  apply (saving_again_changes_nothing ∅
           {| apiKey := " sk-demo "; provider := "groq"; saved := false |}).
  discriminate.
Defined.

End SettingsFacts.

(** ** The card of a project *)

Module NewsCardFacts.
Import NewsCard JsFacts.
Import Summarize (summaries_nonempty, live, now_check, hashText, provider_of, prompt_of).

Lemma github_project_origin dateStr search p :
  p ∈ GitHub.projects (GitHub.GET dateStr search) ->
  exists repo, p = GitHub.to_project repo.
Proof.
  intros Hp. cbn [GitHub.GET GitHub.projects] in Hp.
  unfold GitHub.projects_of, Js.slice0 in Hp.
  apply (subseteq_take 50), GitHubFacts.elem_of_ranked in Hp as (repo & _ & _ & ->).
  by exists repo.
Qed.

Lemma hub_project_origin r p :
  p ∈ HuggingFace.projects (HuggingFace.GET r) ->
  exists space, p = HuggingFace.to_project space.
Proof.
  intros (spaces & space & _ & _ & _ & ->)%HuggingFaceFacts.elem_of_projects.
  by exists space.
Qed.

Lemma request_without_key localStorage project :
  localStorage !! "apiKey" = None ->
  exists provider,
    request_of localStorage project =
      Summarize.Body (Js.Str (description project)) Js.Undefined provider.
Proof. intros Hkey. unfold request_of. rewrite Hkey. by eexists. Qed.

(** X21.  With the summarize route at the other end and a cache without
    empty summaries, a click on Summarize ends in one of two ways: the card
    shows a summary that is not empty, so that the button is gone, and the
    answer was 200; or the alert is raised, the card shows what it showed
    before, and the answer was 400 or 500.  Either way the card is no longer
    summarizing. *)
Theorem card_shows_a_summary_or_alerts e cache localStorage project s :
  summaries_nonempty cache ->
  isSummarizing (handleSummarize localStorage project (route e cache) s).1 = false
  /\ ((handleSummarize localStorage project (route e cache) s).2 = false ->
      exists text,
        summary (handleSummarize localStorage project (route e cache) s).1 = Some text
        /\ text <> ""
        /\ shows_button (handleSummarize localStorage project (route e cache) s).1 = false
        /\ Summarize.status
             (Summarize.resp (Summarize.POST e cache (request_of localStorage project))) = 200)
  /\ ((handleSummarize localStorage project (route e cache) s).2 = true ->
      summary (handleSummarize localStorage project (route e cache) s).1 = summary s
      /\ (Summarize.status
            (Summarize.resp (Summarize.POST e cache (request_of localStorage project))) = 400
          \/ Summarize.status
            (Summarize.resp (Summarize.POST e cache (request_of localStorage project))) = 500)).
Proof.
  intros Hcache. unfold handleSummarize, route.
  destruct (SummarizeFacts.POST_resp_cases e cache (request_of localStorage project))
    as [(k & c & Hc & ->)|[(text & Htext & ->)|[(m & ->)|(m & ->)]]]; cbn.
  - split; [done|]. split; [|done]. intros _. exists (Summarize.summary c).
    specialize (Hcache k c Hc). apply String.eqb_neq in Hcache as Heq.
    unfold shows_button. cbn. by rewrite Heq.
  - split; [done|]. split; [|done]. intros _. exists text.
    apply String.eqb_neq in Htext as Heq.
    unfold shows_button. cbn. by rewrite Heq.
  - split; [done|]. split; [done|]. intros _. split; [done|by left].
  - split; [done|]. split; [done|]. intros _. split; [done|by right].
Qed.

Lemma card_shows_a_summary_or_alerts_witness :
  shows_button
    (handleSummarize {[ "apiKey" := "sk-demo" ]}
       (GitHub.to_project (Demo.repo "vision" 50 ["AI"])) (route Demo.world ∅) initial).1
  = false.
Proof.
  destruct (proj1 (proj2 (card_shows_a_summary_or_alerts Demo.world ∅ {[ "apiKey" := "sk-demo" ]}
                   (GitHub.to_project (Demo.repo "vision" 50 ["AI"])) initial
                   ltac:(intros k c Hc; by apply lookup_empty_Some in Hc)))
              ltac:(vm_compute; reflexivity))
    as (text & _ & _ & Hbutton & _).
  exact Hbutton.
Defined.

(** X22.  Without a stored key the card still shows a summary that the
    cache holds live for the description; when the cache holds none, the
    click raises the alert, leaves the card as it was and causes no upstream
    call. *)
Theorem card_without_key e cache localStorage project s :
  localStorage !! "apiKey" = None ->
  description project <> "" ->
  (forall c,
     cache !! hashText (description project) = Some c ->
     now_check e - Summarize.timestamp c < Summarize.CACHE_DURATION ->
     handleSummarize localStorage project (route e cache) s =
       ({| isSummarizing := false; summary := Some (Summarize.summary c) |}, false))
  /\ ((forall c, cache !! hashText (description project) = Some c ->
                 ~ now_check e - Summarize.timestamp c < Summarize.CACHE_DURATION) ->
      handleSummarize localStorage project (route e cache) s =
        ({| isSummarizing := false; summary := summary s |}, true)
      /\ Summarize.calls (Summarize.POST e cache (request_of localStorage project)) = []).
Proof.
  intros Hkey Hdesc.
  destruct (request_without_key localStorage project Hkey) as [provider Hreq].
  unfold handleSummarize, route. rewrite Hreq. split.
  - intros c Hc Hlive.
    rewrite (SummarizeFacts.POST_hit e cache _ Js.Undefined provider c);
      [done|done|by apply SummarizeFacts.live_survives_sweep|done].
  - intros Hmiss.
    rewrite SummarizeFacts.POST_miss;
      [|done|by apply SummarizeFacts.no_live_entry_after_sweep].
    done.
Qed.

Lemma card_without_key_witness :
  handleSummarize (Settings.handleClear {[ "apiKey" := "sk-old" ]} Settings.initial).1
    (GitHub.to_project (Demo.repo "vision" 50 ["AI"])) (route Demo.world ∅) initial
  = ({| isSummarizing := false; summary := None |}, true).
Proof.
  apply (card_without_key Demo.world ∅
           (Settings.handleClear ({[ "apiKey" := "sk-old" ]} : gmap string string)
                                 Settings.initial).1
           (GitHub.to_project (Demo.repo "vision" 50 ["AI"])) initial).
  - vm_compute. reflexivity.
  - discriminate.
  - intros c Hc. by apply lookup_empty_Some in Hc.
Defined.

(** X23.  A project that one of the two routes returned always has a
    description to summarize: the request a card sends for it is never
    answered [Text is required]. *)
Theorem route_projects_can_be_summarized project :
  (exists dateStr search, project ∈ GitHub.projects (GitHub.GET dateStr search))
  \/ (exists r, project ∈ HuggingFace.projects (HuggingFace.GET r)) ->
  description project <> ""
  /\ forall localStorage e cache,
       Summarize.resp (Summarize.POST e cache (request_of localStorage project))
         <> Summarize.json_status (Summarize.Error "Text is required") 400.
Proof.
  intros Hin.
  assert (description project <> "") as Hdesc.
  { destruct Hin as [(dateStr & search & [repo ->]%github_project_origin)
                    |(r & [space ->]%hub_project_origin)];
      by apply str_or_nonempty. }
  split; [done|]. intros localStorage e cache.
  by apply SummarizeFacts.POST_text_accepted.
Qed.

Lemma route_projects_can_be_summarized_witness :
  description (HuggingFace.to_project (Demo.space 1)) <> ""
  /\ forall localStorage e cache,
       Summarize.resp (Summarize.POST e cache
                         (request_of localStorage (HuggingFace.to_project (Demo.space 1))))
         <> Summarize.json_status (Summarize.Error "Text is required") 400.
Proof.
  apply (route_projects_can_be_summarized (HuggingFace.to_project (Demo.space 1))).
  right. exists (HuggingFace.Spaces [Demo.space 1]). vm_compute. left.
Defined.

(** X24.  A card of a GitHub project is tagged [GitHub], one of a hub
    project [Hugging Face] with its three topics; no card shows more than the
    first three topics of its project. *)
Theorem cards_tag_the_source :
  (forall dateStr search p,
     p ∈ GitHub.projects (GitHub.GET dateStr search) -> source_label p = Some "GitHub")
  /\ (forall r p,
     p ∈ HuggingFace.projects (HuggingFace.GET r) ->
     source_label p = Some "Hugging Face" /\ shown_topics p = ["space"; "demo"; "ai"])
  /\ (forall p, (length (shown_topics p) <= 3)%nat
                /\ shown_topics p = take 3 (topics p)).
Proof.
  split; [|split].
  - by intros dateStr search p [repo ->]%github_project_origin.
  - by intros r p [space ->]%hub_project_origin.
  - intros p. split; [|done]. unfold shown_topics, Js.slice0. rewrite length_take. lia.
Qed.

Lemma cards_tag_the_source_witness :
  source_label (HuggingFace.to_project (Demo.space 1)) = Some "Hugging Face".
Proof.
  apply (proj1 (proj2 cards_tag_the_source) (HuggingFace.Spaces [Demo.space 1])).
  vm_compute. left.
Defined.

(** X25.  From the dialog to the provider: after Save with a key and one
    of the three providers, a click on Summarize for a project whose
    description has no live entry in the cache causes exactly one upstream
    call, to the provider chosen, with the prompt built from the description
    and with the key as it was stored, without the white space around it. *)
Theorem saved_key_reaches_the_provider localStorage s a e cache project :
  Js.trim (Settings.apiKey s) <> "" ->
  Settings.provider s = provider_of a ->
  description project <> "" ->
  (forall c, cache !! hashText (description project) = Some c -> ~ live (now_check e) c) ->
  Summarize.calls
    (Summarize.POST e cache (request_of (Settings.handleSave localStorage s).1 project))
  = [{| Summarize.target := a;
        Summarize.prompt := prompt_of (description project);
        Summarize.key := Js.Str (Js.trim (Settings.apiKey s)) |}].
Proof.
  intros Hkey Hprovider Hdesc Hmiss.
  rewrite SettingsFacts.request_of_saved by (try done; rewrite Hprovider; by destruct a).
  rewrite SummarizeFacts.POST_miss;
    [|done|by apply SummarizeFacts.no_live_entry_after_sweep].
  unfold Summarize.post_miss. cbn [Js.truthy].
  apply String.eqb_neq in Hkey as Heq. rewrite Heq. cbn [negb].
  rewrite Hprovider. cbn [Summarize.provider_or_default].
  rewrite SummarizeFacts.summarizeWithLLM_supported. unfold Summarize.call_api.
  by destruct (Summarize.upstream e _) as [?|[?|]|?].
Qed.

Lemma saved_key_reaches_the_provider_witness :
  Summarize.calls
    (Summarize.POST Demo.world ∅
       (request_of
          (Settings.handleSave ∅
             {| Settings.apiKey := " sk-demo "; Settings.provider := "groq";
                Settings.saved := false |}).1
          (HuggingFace.to_project (Demo.space 1))))
  = [{| Summarize.target := Summarize.Groq;
        Summarize.prompt := prompt_of "acme/demo";
        Summarize.key := Js.Str "sk-demo" |}].
Proof.
  apply (saved_key_reaches_the_provider ∅
           {| Settings.apiKey := " sk-demo "; Settings.provider := "groq";
              Settings.saved := false |}
           Summarize.Groq Demo.world ∅ (HuggingFace.to_project (Demo.space 1))).
  - vm_compute. discriminate.
  - reflexivity.
  - vm_compute. discriminate.
  - intros c Hc. by apply lookup_empty_Some in Hc.
Defined.

End NewsCardFacts.
